(** * Sudoku engine: generator, carver, solver, counter, and the records store

    A shallow embedding of [sudokuGenerator.ts], of the difficulty table of
    [types/sudoku.ts] and of the records store, with the properties of the
    specification proved over it.

    JavaScript arrays are heap objects.  A grid [number[][]] is an outer
    array holding references to nine row arrays, and the search functions
    write into these rows in place.  The embedding keeps that: a [heap] is a
    store of row arrays, a [gridref] is the outer array of row addresses, and
    every function that writes takes the heap and returns the heap.  Functions
    that only read a grid take its current contents, a [board]. *)

From Stdlib Require Import QArith Qround ZifyNat String.
From stdpp Require Import base option list numbers sorting gmap.

Local Open Scope Z_scope.

(** ** Constants of [types/sudoku.ts] *)

Definition GRID_SIZE : nat := 9.
Definition BLOCK_SIZE : nat := 3.

Inductive Difficulty := beginner | intermediate | hard | expert.

Record VisibleCells := { vmin : Z; vmax : Z }.
Record DifficultyConfig := { name : Difficulty; visibleCells : VisibleCells }.

Definition DIFFICULTY_CONFIGS (d : Difficulty) : DifficultyConfig :=
  match d with
  | beginner => {| name := beginner; visibleCells := {| vmin := 36; vmax := 40 |} |}
  | intermediate => {| name := intermediate; visibleCells := {| vmin := 32; vmax := 36 |} |}
  | hard => {| name := hard; visibleCells := {| vmin := 28; vmax := 32 |} |}
  | expert => {| name := expert; visibleCells := {| vmin := 24; vmax := 28 |} |}
  end.

(** ** Boards: the contents of a grid *)

Abbreviation board := (list (list Z)).

(** [grid[row][col]].  [None] is JavaScript's [undefined], which is what a
    read past the end of a row gives; it is [===] to no number.  (A read in a
    missing row raises a TypeError in JavaScript; here it is [None] too.  All
    properties below are about 9x9 grids, where neither happens.) *)
Definition cell (b : board) (row col : nat) : option Z :=
  b !! row ≫= λ r, r !! col.

(** The contents after [grid[row][col] = v], for a cell that exists. *)
Definition bset (b : board) (row col : nat) (v : Z) : board :=
  alter (λ r, <[col := v]> r) row b.

(** [x === num] for a cell read [x]. *)
Definition is_num (x : option Z) (num : Z) : bool :=
  match x with Some v => bool_decide (v = num) | None => false end.

(** The coordinates in the order of the two nested loops
    [for row in 0..8 { for col in 0..8 {..} }]. *)
Definition positions : list (nat * nat) :=
  row ← seq 0 GRID_SIZE; col ← seq 0 GRID_SIZE; [(row, col)].

(** [findEmptyCell]: the first cell, row by row, that holds 0. *)
Definition findEmptyCell (b : board) : option (nat * nat) :=
  find (λ p, is_num (cell b p.1 p.2) 0) positions.

(** [isValidPlacement]: three scans with early [return false]. *)
Definition isValidPlacement (b : board) (row col : nat) (num : Z) : bool :=
  if existsb (λ x, is_num (cell b row x) num) (seq 0 GRID_SIZE) then false
  else if existsb (λ x, is_num (cell b x col) num) (seq 0 GRID_SIZE) then false
  else
    let blockRow := (row / BLOCK_SIZE * BLOCK_SIZE)%nat in
    let blockCol := (col / BLOCK_SIZE * BLOCK_SIZE)%nat in
    if existsb (λ i, existsb (λ j, is_num (cell b (blockRow + i) (blockCol + j)) num)
                        (seq 0 BLOCK_SIZE)) (seq 0 BLOCK_SIZE)
    then false
    else true.

(** [getBlockIndex]. *)
Definition getBlockIndex (row col : nat) : nat :=
  (row / BLOCK_SIZE * BLOCK_SIZE + col / BLOCK_SIZE)%nat.

(** The digits tried by [for (let num = 1; num <= 9; num++)]. *)
Definition digits : list Z := [1; 2; 3; 4; 5; 6; 7; 8; 9].

(** ** Specification vocabulary *)

(** A 9x9 board. *)
Definition wfb (b : board) : Prop :=
  length b = GRID_SIZE ∧ Forall (λ r, length r = GRID_SIZE) b.

Definition in_grid (p : nat * nat) : Prop :=
  (p.1 < GRID_SIZE)%nat ∧ (p.2 < GRID_SIZE)%nat.

(** Two coordinates lie in a common row, column or 3x3 block. *)
Definition same_unit (p q : nat * nat) : Prop :=
  p.1 = q.1 ∨ p.2 = q.2 ∨
  ((p.1 / BLOCK_SIZE)%nat = (q.1 / BLOCK_SIZE)%nat ∧
   (p.2 / BLOCK_SIZE)%nat = (q.2 / BLOCK_SIZE)%nat).

Definition at_ (b : board) (p : nat * nat) : option Z := cell b p.1 p.2.

(** A Solution: every cell holds a digit 1..9 and no two different cells of
    a row, column or block hold the same digit. *)
Definition Solution (s : board) : Prop :=
  wfb s ∧
  (∀ p, in_grid p → ∃ v, at_ s p = Some v ∧ 1 ≤ v ≤ 9) ∧
  (∀ p q, in_grid p → in_grid q → p ≠ q → same_unit p q → at_ s p ≠ at_ s q).

(** [s] has the value of [b] in every cell that is not empty in [b]. *)
Definition keeps (b s : board) : Prop :=
  ∀ p, in_grid p → at_ b p ≠ Some 0 → at_ s p = at_ b p.

(** [s] is a completion of the puzzle [b]. *)
Definition Completion (b s : board) : Prop := Solution s ∧ keeps b s.

(** An internally consistent starting grid: cells hold 0..9 and no digit is
    repeated in a row, column or block. *)
Definition Consistent (b : board) : Prop :=
  wfb b ∧
  (∀ p, in_grid p → ∃ v, at_ b p = Some v ∧ 0 ≤ v ≤ 9) ∧
  (∀ p q, in_grid p → in_grid q → p ≠ q → same_unit p q →
     at_ b p ≠ Some 0 → at_ b p ≠ at_ b q).

(** What the search guarantees on any 9x9 grid, consistent or not: the cells
    that were empty are filled with digits that differ from every other cell
    of their row, column and block; the other cells are kept. *)
Definition Filling (b s : board) : Prop :=
  wfb s ∧ keeps b s ∧
  ∀ p, in_grid p → at_ b p = Some 0 →
    (∃ v, at_ s p = Some v ∧ 1 ≤ v ≤ 9) ∧
    ∀ q, in_grid q → q ≠ p → same_unit p q → at_ s q ≠ at_ s p.

(** Number of empty cells. *)
Definition empties (b : board) : nat :=
  length (filter (λ p, is_num (at_ b p) 0 = true) positions).

(** All completions, in the order in which the backtracking search with
    ascending digits meets them (a specification device, not code). *)
Fixpoint completions (fuel : nat) (b : board) : list board :=
  match fuel with
  | O => []
  | S fuel =>
      match findEmptyCell b with
      | None => [b]
      | Some (row, col) =>
          digits ≫= λ num,
            if isValidPlacement b row col num
            then completions fuel (bset b row col num) else []
      end
  end.

(** Decidable forms, for evaluation on concrete boards. *)
Definition wfbb (b : board) : bool :=
  bool_decide (length b = GRID_SIZE) && forallb (λ r, bool_decide (length r = GRID_SIZE)) b.

Definition same_unitb (p q : nat * nat) : bool :=
  bool_decide (p.1 = q.1) || bool_decide (p.2 = q.2) ||
  (bool_decide ((p.1 / BLOCK_SIZE)%nat = (q.1 / BLOCK_SIZE)%nat) &&
   bool_decide ((p.2 / BLOCK_SIZE)%nat = (q.2 / BLOCK_SIZE)%nat)).

Definition Solutionb (s : board) : bool :=
  wfbb s &&
  forallb (λ p, match at_ s p with
                | Some v => bool_decide (1 ≤ v ≤ 9)
                | None => false end) positions &&
  forallb (λ p, forallb (λ q, bool_decide (p = q) || negb (same_unitb p q) ||
                              negb (bool_decide (at_ s p = at_ s q)))
                        positions) positions.

Definition Consistentb (b : board) : bool :=
  wfbb b &&
  forallb (λ p, match at_ b p with
                | Some v => bool_decide (0 ≤ v ≤ 9)
                | None => false end) positions &&
  forallb (λ p, forallb (λ q, bool_decide (p = q) || negb (same_unitb p q) ||
                              is_num (at_ b p) 0 ||
                              negb (bool_decide (at_ b p = at_ b q)))
                        positions) positions.

(** ** The heap: row arrays and grids *)

(** The store of row arrays; an address is an index into it.  Arrays are
    never freed. *)
Abbreviation heap := (list (list Z)).

(** A grid value: the outer array, holding the addresses of its rows.  No
    function of the engine writes to an outer array once it is built, so it
    is kept as a value. *)
Abbreviation gridref := (list nat).

(** The contents of grid [g] in heap [h]. *)
Definition view (h : heap) (g : gridref) : board :=
  (λ l, default [] (h !! l)) <$> g.

(** [grid[row][col] = v], on a cell that exists.  (On a missing cell
    JavaScript grows the row or raises; the engine only writes to cells it
    has just read.) *)
Definition wr (h : heap) (g : gridref) (row col : nat) (v : Z) : heap :=
  match g !! row with
  | Some l => alter (λ r, <[col := v]> r) l h
  | None => h
  end.

(** [grid.map((row) => [...row])]: nine fresh rows with the same contents
    and a fresh outer array. *)
Definition copyGrid (h : heap) (g : gridref) : heap * gridref :=
  (h ++ view h g, seq (length h) (length g)).

(** The grid built by the two loops of [generateSolution]: fresh rows of
    zeros. *)
Definition newGrid (h : heap) : heap * gridref :=
  (h ++ replicate GRID_SIZE (replicate GRID_SIZE 0), seq (length h) GRID_SIZE).

(** A well-formed grid in the heap: nine distinct rows of nine cells. *)
Definition wf (h : heap) (g : gridref) : Prop :=
  NoDup g ∧ length g = GRID_SIZE ∧
  ∀ l, l ∈ g → ∃ r, h !! l = Some r ∧ length r = GRID_SIZE.

(** The shape alone (rows may be shared), as decidable check. *)
Definition shapeb (h : heap) (g : gridref) : bool :=
  bool_decide (length g = GRID_SIZE) &&
  forallb (λ l, match h !! l with
                | Some r => bool_decide (length r = GRID_SIZE)
                | None => false end) g.

(** The recursion depth of the searches is at most the number of cells plus
    one; [FUEL] is the bound given to the recursive functions, which return
    [None] only if it runs out. *)
Definition FUEL : nat := S (GRID_SIZE * GRID_SIZE).

(** ** The random source *)

Section Engine.

(** [random k] is the value of the [k]-th call of [Math.random()]; the
    functions that draw take the index of the next call and return the index
    after their last draw.  A double is a rational number, and the products
    with the small integers below are taken exactly. *)
Variable random : nat → Q.

(** [randomInRange]: [Math.floor(Math.random() * (max - min + 1)) + min]. *)
Definition randomInRange (k : nat) (min max : Z) : Z * nat :=
  (Qfloor (random k * inject_Z (max - min + 1)) + min, S k).

(** [[a[i], a[j]] = [a[j], a[i]]]. *)
Definition swap {A} `{Inhabited A} (a : list A) (i j : nat) : list A :=
  <[j := a !!! i]> (<[i := a !!! j]> a).

(** The loop [for (let i = shuffled.length - 1; i > 0; i--)]. *)
Fixpoint shuffle_from {A} `{Inhabited A} (i k : nat) (shuffled : list A)
  : list A * nat :=
  match i with
  | O => (shuffled, k)
  | S i' =>
      let j := Z.to_nat (Qfloor (random k * inject_Z (Z.of_nat i + 1))) in
      shuffle_from i' (S k) (swap shuffled i j)
  end.

(** [shuffleArray]: Fisher-Yates on a copy. *)
Definition shuffleArray {A} `{Inhabited A} (k : nat) (array : list A)
  : list A * nat :=
  shuffle_from (length array - 1) k array.

(** ** Solution generator *)

(** The loop [for (const num of numbers)] of [fillGrid]; [rec] is the
    recursive call. *)
Fixpoint fillGrid_loop (rec : nat → heap → option (nat * heap * bool))
    (g : gridref) (row col : nat) (numbers : list Z) (k : nat) (h : heap)
  : option (nat * heap * bool) :=
  match numbers with
  | [] => Some (k, h, false)
  | num :: numbers =>
      if isValidPlacement (view h g) row col num then
        '(k, h, filled) ← rec k (wr h g row col num);
        if filled : bool then Some (k, h, true)
        else fillGrid_loop rec g row col numbers k (wr h g row col 0)
      else fillGrid_loop rec g row col numbers k h
  end.

Fixpoint fillGrid (fuel : nat) (g : gridref) (k : nat) (h : heap)
  : option (nat * heap * bool) :=
  match fuel with
  | O => None
  | S fuel =>
      match findEmptyCell (view h g) with
      | None => Some (k, h, true)
      | Some (row, col) =>
          let '(numbers, k) := shuffleArray k digits in
          fillGrid_loop (fillGrid fuel g) g row col numbers k h
      end
  end.

(** [generateSolution]: the boolean of [fillGrid] is dropped. *)
Definition generateSolution (k : nat) (h : heap) : option (nat * heap * gridref) :=
  let '(h, grid) := newGrid h in
  '(k, h, _) ← fillGrid FUEL grid k h;
  Some (k, h, grid).

(** ** Solution counter *)

Fixpoint countSolutions_loop (rec : heap → Z → option (heap * Z))
    (g : gridref) (row col : nat) (nums : list Z) (h : heap) (count : Z)
  : option (heap * Z) :=
  match nums with
  | [] => Some (h, count)
  | num :: nums =>
      if isValidPlacement (view h g) row col num then
        '(h, count) ← rec (wr h g row col num) count;
        countSolutions_loop rec g row col nums (wr h g row col 0) count
      else countSolutions_loop rec g row col nums h count
  end.

Fixpoint countSolutions (fuel : nat) (g : gridref) (h : heap) (count : Z)
  : option (heap * Z) :=
  match fuel with
  | O => None
  | S fuel =>
      if decide (count > 1) then Some (h, count)
      else match findEmptyCell (view h g) with
           | None => Some (h, count + 1)
           | Some (row, col) =>
               countSolutions_loop (countSolutions fuel g) g row col digits h count
           end
  end.

(** ** Solver *)

Fixpoint solve_loop (rec : heap → option (heap * bool))
    (g : gridref) (row col : nat) (nums : list Z) (h : heap)
  : option (heap * bool) :=
  match nums with
  | [] => Some (h, false)
  | num :: nums =>
      if isValidPlacement (view h g) row col num then
        '(h, solved) ← rec (wr h g row col num);
        if solved : bool then Some (h, true)
        else solve_loop rec g row col nums (wr h g row col 0)
      else solve_loop rec g row col nums h
  end.

Fixpoint solve (fuel : nat) (g : gridref) (h : heap) : option (heap * bool) :=
  match fuel with
  | O => None
  | S fuel =>
      match findEmptyCell (view h g) with
      | None => Some (h, true)
      | Some (row, col) => solve_loop (solve fuel g) g row col digits h
      end
  end.

(** [solvePuzzle]: the inner [None] is JavaScript's [null]. *)
Definition solvePuzzle (h : heap) (puzzle : gridref)
  : option (heap * option gridref) :=
  let '(h, solution) := copyGrid h puzzle in
  '(h, solved) ← solve FUEL solution h;
  Some (h, if solved : bool then Some solution else None).

(** ** Puzzle carver *)

(** [puzzle[row][col] = temp], where [temp] was read from that cell. *)
Definition restore (h : heap) (g : gridref) (row col : nat) (temp : option Z) : heap :=
  match temp with Some v => wr h g row col v | None => h end.

(** The loop [for (const [row, col] of shuffledPositions)]. *)
Fixpoint carve (puzzle : gridref) (cellsToRemove : Z)
    (shuffledPositions : list (nat * nat)) (h : heap) (removed : Z)
  : option (heap * Z) :=
  match shuffledPositions with
  | [] => Some (h, removed)
  | (row, col) :: rest =>
      if decide (removed >= cellsToRemove) then Some (h, removed)
      else
        let temp := cell (view h puzzle) row col in
        let h := wr h puzzle row col 0 in
        '(h, solutionCount) ← countSolutions FUEL puzzle h 0;
        if decide (solutionCount = 1)
        then carve puzzle cellsToRemove rest h (removed + 1)
        else carve puzzle cellsToRemove rest (restore h puzzle row col temp) removed
  end.

(** The locals of [createPuzzle] at its [return]. *)
Record Carved := {
  c_heap : heap;
  c_puzzle : gridref;
  c_next : nat;
  c_cellsToShow : Z;
  c_cellsToRemove : Z;
  c_removed : Z
}.

Definition createPuzzle_run (h : heap) (solution : gridref)
    (difficulty : Difficulty) (k : nat) : option Carved :=
  let '(h, puzzle) := copyGrid h solution in
  let config := DIFFICULTY_CONFIGS difficulty in
  let '(cellsToShow, k) :=
    randomInRange k (vmin (visibleCells config)) (vmax (visibleCells config)) in
  let cellsToRemove := Z.of_nat (GRID_SIZE * GRID_SIZE) - cellsToShow in
  let '(shuffledPositions, k) := shuffleArray k positions in
  '(h, removed) ← carve puzzle cellsToRemove shuffledPositions h 0;
  Some {| c_heap := h; c_puzzle := puzzle; c_next := k;
          c_cellsToShow := cellsToShow; c_cellsToRemove := cellsToRemove;
          c_removed := removed |}.

(** [createPuzzle]: the heap after the call and the returned grid. *)
Definition createPuzzle (h : heap) (solution : gridref)
    (difficulty : Difficulty) (k : nat) : option (heap * gridref) :=
  r ← createPuzzle_run h solution difficulty k;
  Some (c_heap r, c_puzzle r).

End Engine.

(** Number of non-empty cells of a board. *)
Definition visible (b : board) : nat :=
  length (filter (λ p, is_num (at_ b p) 0 = false) positions).

(** ** Vocabulary of the proofs *)

(** [h'] differs from [h] at most in the rows of [g]. *)
Definition frame (g : gridref) (h h' : heap) : Prop :=
  length h' = length h ∧ ∀ l, l ∉ g → h' !! l = h !! l.

(** The counter after [n] more solutions have been met, starting at [c]:
    it stops growing once it exceeds 1. *)
Definition cap (c : Z) (n : nat) : Z :=
  if decide (c > 1) then c else Z.min 2 (c + Z.of_nat n).

(** The digits placed by one pass of the loop over [nums] at the empty cell
    [(row, col)], and what the search below each of them yields. *)
Definition branch (n : nat) (b : board) (row col : nat) (num : Z) : list board :=
  if isValidPlacement b row col num then completions n (bset b row col num) else [].

(** [res] is the outcome of a search from heap [h] whose solutions, in the
    order of the search, are [l]: the first of them is left in the grid, or
    the grid is left as it was and the answer is [false]. *)
Definition finds (g : gridref) (h : heap) (l : list board)
    (res : option (heap * bool)) : Prop :=
  match l with
  | [] => res = Some (h, false)
  | s :: _ => ∃ h', res = Some (h', true) ∧ view h' g = s ∧ wf h' g ∧ frame g h h'
  end.

(** [res] is the outcome of a randomized search from heap [h] whose
    solutions are [l]: one of them is left in the grid, or there is none and
    the grid is left as it was. *)
Definition fills (g : gridref) (h : heap) (l : list board)
    (res : option (nat * heap * bool)) : Prop :=
  ∃ k' h' filled, res = Some (k', h', filled) ∧
    if filled : bool then view h' g ∈ l ∧ wf h' g ∧ frame g h h'
    else h' = h ∧ l = [].

(** The coordinates of row [i], of column [i] and of block [i] (blocks are
    numbered as by [getBlockIndex]). *)
Definition row_cells (i : nat) : list (nat * nat) := (λ c, (i, c)) <$> seq 0 GRID_SIZE.
Definition col_cells (i : nat) : list (nat * nat) := (λ r, (r, i)) <$> seq 0 GRID_SIZE.
Definition block_cells (i : nat) : list (nat * nat) :=
  r ← seq 0 BLOCK_SIZE; c ← seq 0 BLOCK_SIZE;
  [((i / BLOCK_SIZE * BLOCK_SIZE + r)%nat, (i mod BLOCK_SIZE * BLOCK_SIZE + c)%nat)].

(** The numbers found at the coordinates [ps]. *)
Definition values (s : board) (ps : list (nat * nat)) : list Z := omap (at_ s) ps.

(** [ps] lists nine different cells, any two of them in a common unit. *)
Definition unit_ok (ps : list (nat * nat)) : Prop :=
  NoDup ps ∧ length ps = GRID_SIZE ∧
  (∀ p, p ∈ ps → in_grid p) ∧ (∀ p q, p ∈ ps → q ∈ ps → same_unit p q).

Definition unit_okb (ps : list (nat * nat)) : bool :=
  bool_decide (NoDup ps) && bool_decide (length ps = GRID_SIZE) &&
  forallb (λ p, bool_decide (p ∈ positions)) ps &&
  forallb (λ p, forallb (same_unitb p) ps) ps.

(** [p] is [s] with some cells emptied. *)
Definition Sub (s p : board) : Prop :=
  wfb p ∧ ∀ pos, in_grid pos → at_ p pos = Some 0 ∨ at_ p pos = at_ s pos.

(** [v] is held by a cell other than [(row, col)] in its row, column or
    block. *)
Definition appears_elsewhere (b : board) (row col : nat) (v : Z) : Prop :=
  ∃ q, in_grid q ∧ q ≠ (row, col) ∧ same_unit (row, col) q ∧ at_ b q = Some v.

(** The visible-cell ranges as the specification lists them. *)
Definition visible_range (d : Difficulty) : Z * Z :=
  match d with
  | beginner => (36, 40)
  | intermediate => (32, 36)
  | hard => (28, 32)
  | expert => (24, 28)
  end.

Definition wfhb (h : heap) (g : gridref) : bool :=
  bool_decide (NoDup g) && shapeb h g.

#[local] Instance same_unit_dec p q : Decision (same_unit p q).
Proof. unfold same_unit. apply _. Defined.

(** ** Concrete grids and a concrete random source *)

Definition empty_board : board := replicate GRID_SIZE (replicate GRID_SIZE 0).

Definition known_solution : board :=
  [ [5; 3; 4; 6; 7; 8; 9; 1; 2];
    [6; 7; 2; 1; 9; 5; 3; 4; 8];
    [1; 9; 8; 3; 4; 2; 5; 6; 7];
    [8; 5; 9; 7; 6; 1; 4; 2; 3];
    [4; 2; 6; 8; 5; 3; 7; 9; 1];
    [7; 1; 3; 9; 2; 4; 8; 5; 6];
    [9; 6; 1; 5; 3; 7; 2; 8; 4];
    [2; 8; 7; 4; 1; 9; 6; 3; 5];
    [3; 4; 5; 2; 8; 6; 1; 7; 9] ].

(** The test grid: 5 at (0,0) and at (0,1), every other cell empty. *)
Definition conflict_board : board :=
  [5; 5; 0; 0; 0; 0; 0; 0; 0] :: replicate 8 (replicate 9 0).

(** The grid with a single 5, at (0,0). *)
Definition five_board : board := bset empty_board 0 0 5.

(** The random source of the test suite: 0.01, 0.02, ..., 0.99, 0, 0.01, ... *)
Definition mock_random (n : nat) : Q := Z.of_nat (S n mod 100) # 100.

(** ** The records store *)

Module Records.

Record GameRecord := {
  id : string;
  playerName : string;
  score : Z;
  difficulty : Difficulty;
  time : Z;
  date : Z;
  hintsUsed : Z;
  errors : Z
}.

(** [Omit<GameRecord, 'id' | 'date'>], the argument of [addRecord]. *)
Record NewRecord := {
  n_playerName : string;
  n_score : Z;
  n_difficulty : Difficulty;
  n_time : Z;
  n_hintsUsed : Z;
  n_errors : Z
}.

Definition MAX_RECORDS_PER_DIFFICULTY : nat := 3.

#[global] Instance Difficulty_eq_dec : EqDecision Difficulty.
Proof. solve_decision. Defined.

(** The comparator [(a, b) => b.score - a.score].  Scores are the integers
    the game computes. *)
Definition compareScore (a b : GameRecord) : Z := score b - score a.

(** [Array.prototype.sort(compareFn)] is a stable sort: [a] comes before [b]
    when [compareFn(a, b) < 0], and elements that compare equal keep their
    order.  A stable sort has one result; here it is built by insertion
    from the right. *)
Fixpoint insert_by {A} (compareFn : A → A → Z) (x : A) (l : list A) : list A :=
  match l with
  | [] => [x]
  | y :: l' =>
      if decide (compareFn x y ≤ 0) then x :: y :: l'
      else y :: insert_by compareFn x l'
  end.

Definition sort_by {A} (compareFn : A → A → Z) (l : list A) : list A :=
  foldr (insert_by compareFn) [] l.

(** The order a sort by [compareScore] establishes between neighbours. *)
Definition score_desc (a b : GameRecord) : Prop := score b ≤ score a.

(** [getRecordsByDifficulty]: filter, sort, slice. *)
Definition getRecordsByDifficulty (records : list GameRecord) (d : Difficulty)
  : list GameRecord :=
  take MAX_RECORDS_PER_DIFFICULTY
       (sort_by compareScore (filter (λ r, difficulty r = d) records)).

Definition difficulties : list Difficulty := [beginner; intermediate; hard; expert].

(** [addRecord]: [uuid] is the result of [crypto.randomUUID()] and [now] that
    of [Date.now()].  Returns the new value of [records] and the new record.
    ([saveRecords] writes the list to the local storage and does not change
    it.) *)
Definition addRecord (records : list GameRecord) (record : NewRecord)
    (uuid : string) (now : Z) : list GameRecord * GameRecord :=
  let newRecord :=
    {| id := uuid; playerName := n_playerName record; score := n_score record;
       difficulty := n_difficulty record; time := n_time record; date := now;
       hintsUsed := n_hintsUsed record; errors := n_errors record |} in
  let records := records ++ [newRecord] in
  let newRecords := difficulties ≫= getRecordsByDifficulty records in
  (newRecords, newRecord).

(** The store after a sequence of [addRecord] calls. *)
Definition after (init : list GameRecord) (calls : list (NewRecord * string * Z))
  : list GameRecord :=
  foldl (λ records c, (addRecord records c.1.1 c.1.2 c.2).1) init calls.

(** Number of records of difficulty [d] in the store. *)
Definition kept (records : list GameRecord) (d : Difficulty) : nat :=
  length (filter (λ r, difficulty r = d) records).

End Records.

(** ** Vocabulary of the further properties *)

(** [q] comes before [p] in the order of the two nested loops. *)
Definition before (q p : nat * nat) : Prop :=
  (q.1 < p.1)%nat ∨ (q.1 = p.1 ∧ (q.2 < p.2)%nat).

#[local] Instance before_dec q p : Decision (before q p).
Proof. unfold before. apply _. Defined.

(** ** The validator ([sudokuValidator.ts]) *)

Module Validator.

(** The interface [Cell]; [value : number | null]. *)
Record Cell := {
  value : option Z;
  isInitial : bool;
  isError : bool;
  isDraft : bool;
  row : nat;
  col : nat;
  block : nat;
  hasScored : bool
}.

(** [ValidationResult]; a conflict [{ row, col }] is a pair. *)
Record ValidationResult := {
  isValid : bool;
  conflicts : list (nat * nat)
}.

(** A board [Cell[][]].  The cells of a board are objects of their own (the
    store builds each with an object literal), so a board is held by value
    and a write to a cell is a write to the board. *)
Abbreviation cellBoard := (list (list Cell)).

(** [board[r][c]]. *)
Definition cellAt (b : cellBoard) (r c : nat) : option Cell :=
  b !! r ≫= λ x, x !! c.

(** [board[r][c].value]; [None] is [null].  (On a missing cell JavaScript
    raises; the properties below are about 9x9 boards.) *)
Definition valueAt (b : cellBoard) (r c : nat) : option Z :=
  cellAt b r c ≫= value.

(** [cell.value = v] for the cell [board[r][c]]. *)
Definition with_value (v : option Z) (x : Cell) : Cell :=
  {| value := v; isInitial := isInitial x; isError := isError x;
     isDraft := isDraft x; row := row x; col := col x; block := block x;
     hasScored := hasScored x |}.

Definition set_value (b : cellBoard) (r c : nat) (v : option Z) : cellBoard :=
  alter (alter (with_value v) c) r b.

(** [validateMove]: the conflicts of the row, then of the column, then of
    the block, in the order of the loops. *)
Definition validateMove (b : cellBoard) (row col : nat) (v : Z) : ValidationResult :=
  let rowConflicts :=
    (λ c, (row, c)) <$>
      filter (λ c, c ≠ col ∧ valueAt b row c = Some v) (seq 0 GRID_SIZE) in
  let colConflicts :=
    (λ r, (r, col)) <$>
      filter (λ r, r ≠ row ∧ valueAt b r col = Some v) (seq 0 GRID_SIZE) in
  let blockRow := (row / BLOCK_SIZE * BLOCK_SIZE)%nat in
  let blockCol := (col / BLOCK_SIZE * BLOCK_SIZE)%nat in
  let blockConflicts :=
    filter (λ p, p.1 ≠ row ∧ p.2 ≠ col ∧ valueAt b p.1 p.2 = Some v)
           (r ← seq blockRow BLOCK_SIZE; c ← seq blockCol BLOCK_SIZE; [(r, c)]) in
  let conflicts := rowConflicts ++ colConflicts ++ blockConflicts in
  {| isValid := bool_decide (length conflicts = 0%nat); conflicts := conflicts |}.

(** [isBoardValid]: every filled cell is taken out, checked and put back;
    the function returns at the first cell that fails.  The board after the
    call is returned with the answer. *)
Fixpoint isBoardValid_loop (ps : list (nat * nat)) (b : cellBoard)
  : cellBoard * bool :=
  match ps with
  | [] => (b, true)
  | (r, c) :: ps =>
      match valueAt b r c with
      | Some tempValue =>
          let b := set_value b r c None in
          let validation := validateMove b r c tempValue in
          let b := set_value b r c (Some tempValue) in
          if isValid validation then isBoardValid_loop ps b else (b, false)
      | None => isBoardValid_loop ps b
      end
  end.

Definition isBoardValid (b : cellBoard) : cellBoard * bool :=
  isBoardValid_loop positions b.

(** [isBoardComplete]. *)
Definition isBoardComplete (b : cellBoard) : cellBoard * bool :=
  if existsb (λ p, bool_decide (valueAt b p.1 p.2 = None)) positions
  then (b, false)
  else isBoardValid b.

(** The loop shared, in text, by [isRowComplete], [isColumnComplete] and
    [isBlockComplete]: [None] is the early [return false]; the set is a
    [Set<number>]. *)
Fixpoint collect (b : cellBoard) (ps : list (nat * nat)) (values : gset Z)
  : option (gset Z) :=
  match ps with
  | [] => Some values
  | (r, c) :: ps =>
      match valueAt b r c with
      | None => None
      | Some v =>
          if decide (v ∈ values) then None
          else collect b ps ({[v]} ∪ values)
      end
  end.

Definition complete (b : cellBoard) (ps : list (nat * nat)) : bool :=
  match collect b ps ∅ with
  | Some values => bool_decide (size values = GRID_SIZE)
  | None => false
  end.

Definition isRowComplete (b : cellBoard) (row : nat) : bool :=
  complete b ((λ c, (row, c)) <$> seq 0 GRID_SIZE).

Definition isColumnComplete (b : cellBoard) (col : nat) : bool :=
  complete b ((λ r, (r, col)) <$> seq 0 GRID_SIZE).

Definition isBlockComplete (b : cellBoard) (blockIndex : nat) : bool :=
  let blockRow := (blockIndex / BLOCK_SIZE * BLOCK_SIZE)%nat in
  let blockCol := (blockIndex mod BLOCK_SIZE * BLOCK_SIZE)%nat in
  complete b (r ← seq blockRow BLOCK_SIZE; c ← seq blockCol BLOCK_SIZE; [(r, c)]).

(** [getDigitCounts]: a [Map<number, number>]. *)
Definition getDigitCounts (b : cellBoard) : gmap Z Z :=
  let counts := foldl (λ counts i, <[i := 0]> counts) ∅ digits in
  foldl (λ counts p,
           match valueAt b p.1 p.2 with
           | Some v => <[v := default 0 (counts !! v) + 1]> counts
           | None => counts
           end)
        counts positions.

(** [findValidCellsForValue]. *)
Definition findValidCellsForValue (b : cellBoard) (v : Z) : list (nat * nat) :=
  filter (λ p, valueAt b p.1 p.2 = None ∧
               isValid (validateMove b p.1 p.2 v) = true) positions.

(** *** Vocabulary *)

(** A 9x9 board. *)
Definition wfc (b : cellBoard) : Prop :=
  length b = GRID_SIZE ∧ Forall (λ r, length r = GRID_SIZE) b.

Definition wfcb (b : cellBoard) : bool :=
  bool_decide (length b = GRID_SIZE) &&
  forallb (λ r, bool_decide (length r = GRID_SIZE)) b.

Definition val (b : cellBoard) (p : nat * nat) : option Z := valueAt b p.1 p.2.

(** The number grid of a board, [null] read as 0. *)
Definition grid_of (b : cellBoard) : board :=
  (λ r : list Cell, (λ x, default 0 (value x)) <$> r) <$> b.

(** No filled cell has its value in another cell of its row, column or
    block. *)
Definition Valid (b : cellBoard) : Prop :=
  ∀ p q, in_grid p → in_grid q → p ≠ q → same_unit p q →
         val b p ≠ None → val b p ≠ val b q.

(** [q] holds [v] and is another cell of the row, column or block of [p]. *)
Definition conflict (b : cellBoard) (p : nat * nat) (v : Z) (q : nat * nat) : Prop :=
  in_grid q ∧ q ≠ p ∧ same_unit p q ∧ val b q = Some v.

(** The cells [ps] are filled with values that differ from one another. *)
Definition Distinct (b : cellBoard) (ps : list (nat * nat)) : Prop :=
  (∀ p, p ∈ ps → val b p ≠ None) ∧
  (∀ p q, p ∈ ps → q ∈ ps → p ≠ q → val b p ≠ val b q).

(** Number of cells that hold [d]. *)
Definition occurrences (b : cellBoard) (d : Z) : nat :=
  length (filter (λ p, val b p = Some d) positions).

(** The empty board of the tests, with one cell filled. *)
Definition blank (r c : nat) : Cell :=
  {| value := None; isInitial := false; isError := false; isDraft := false;
     row := r; col := c; block := getBlockIndex r c; hasScored := false |}.

Definition blank_board : cellBoard :=
  (λ r, (λ c, blank r c) <$> seq 0 GRID_SIZE) <$> seq 0 GRID_SIZE.

(** The board that shows the number grid [g]: a cell with value 0 is empty. *)
Definition cells_of (g : list (list Z)) : cellBoard :=
  (λ r, (λ c, with_value (match cell g r c with
                          | Some 0 | None => None
                          | Some v => Some v
                          end) (blank r c)) <$> seq 0 GRID_SIZE) <$> seq 0 GRID_SIZE.

End Validator.

(** * Proofs *)

Ltac dlia := zify; Z.to_euclidean_division_equations; lia.

(** ** Boards: basic facts *)

Lemma elem_of_positions p : p ∈ positions ↔ in_grid p.
Proof.
  unfold positions, in_grid, GRID_SIZE. destruct p as [r c]. cbn [fst snd].
  rewrite list_elem_of_bind. split.
  - intros (r' & Hc & Hr). apply list_elem_of_bind in Hc as (c' & Hc & Hc').
    apply list_elem_of_singleton in Hc. inversion Hc; subst.
    apply elem_of_seq in Hr, Hc'. lia.
  - intros [Hr Hc]. exists r. split; [|apply elem_of_seq; lia].
    apply list_elem_of_bind. exists c. split; [apply list_elem_of_singleton; done|].
    apply elem_of_seq; lia.
Qed.

Lemma wfb_cell b p : wfb b → in_grid p → ∃ v, at_ b p = Some v.
Proof.
  intros [Hl Hr] [H1 H2]. unfold at_, cell.
  destruct (lookup_lt_is_Some_2 b p.1) as [r Er]; [lia|].
  rewrite Er. simpl. apply list_elem_of_lookup_2 in Er as Hin.
  rewrite Forall_forall in Hr. specialize (Hr _ Hin).
  destruct (lookup_lt_is_Some_2 r p.2) as [v Ev]; [lia|]. eauto.
Qed.

Lemma wfb_bset b r c v : wfb b → wfb (bset b r c v).
Proof.
  intros [Hl Hr]. split.
  - unfold bset. by rewrite length_alter.
  - unfold bset. apply Forall_alter; [done|]. intros x _ Hx.
    by rewrite length_insert.
Qed.

Lemma at_bset_same b p v : wfb b → in_grid p → at_ (bset b p.1 p.2 v) p = Some v.
Proof.
  intros [Hl Hr] [H1 H2]. unfold at_, cell, bset.
  destruct (lookup_lt_is_Some_2 b p.1) as [r Er]; [lia|].
  rewrite list_lookup_alter_eq, Er. simpl.
  apply list_lookup_insert_eq. apply list_elem_of_lookup_2 in Er.
  rewrite Forall_forall in Hr. specialize (Hr _ Er). lia.
Qed.

Lemma at_bset_other b p q v : p ≠ q → at_ (bset b p.1 p.2 v) q = at_ b q.
Proof.
  intros Hne. unfold at_, cell, bset.
  destruct (decide (p.1 = q.1)) as [E|E].
  - rewrite E, list_lookup_alter_eq. destruct (b !! q.1) as [r|]; simpl; [|done].
    apply list_lookup_insert_ne. intros E2. apply Hne.
    destruct p, q; simpl in *; congruence.
  - by rewrite list_lookup_alter_ne.
Qed.

Lemma board_ext b1 b2 :
  wfb b1 → wfb b2 → (∀ p, in_grid p → at_ b1 p = at_ b2 p) → b1 = b2.
Proof.
  intros [L1 R1] [L2 R2] H. apply list_eq_same_length with GRID_SIZE; [done..|].
  intros i r1 r2 Hi E1 E2.
  rewrite Forall_forall in R1, R2.
  apply list_eq_same_length with GRID_SIZE;
    [eauto using list_elem_of_lookup_2..|].
  intros j x y Hj Ex Ey.
  specialize (H (i, j) (conj Hi Hj)). unfold at_, cell in H. simpl in H.
  rewrite E1, E2 in H. simpl in H. congruence.
Qed.

Lemma bset_id b p v : at_ b p = Some v → bset b p.1 p.2 v = b.
Proof.
  unfold at_, cell, bset. intros H.
  destruct (b !! p.1) as [r|] eqn:E; simpl in H; [|done].
  apply list_eq. intros i. destruct (decide (i = p.1)) as [->|Hne].
  - rewrite list_lookup_alter_eq, E. simpl. by rewrite list_insert_id.
  - by rewrite list_lookup_alter_ne.
Qed.

Lemma bset_bset b r c v w : bset (bset b r c v) r c w = bset b r c w.
Proof.
  unfold bset. rewrite list_alter_alter_eq. apply list_alter_ext; [|done].
  intros x _. simpl. by rewrite list_insert_insert_eq.
Qed.

Lemma is_num_true x v : is_num x v = true ↔ x = Some v.
Proof.
  destruct x as [w|]; simpl; [|done].
  rewrite bool_decide_eq_true. split; congruence.
Qed.

Lemma is_num_false x v : is_num x v = false ↔ x ≠ Some v.
Proof. rewrite <- is_num_true. by destruct (is_num x v). Qed.

Lemma existsb_false {A} (f : A → bool) l :
  existsb f l = false ↔ ∀ x, x ∈ l → f x = false.
Proof.
  induction l as [|a l IH]; simpl.
  - split; [intros _ x Hx; inversion Hx|done].
  - rewrite orb_false_iff, IH. split.
    + intros [Ha Hl] x Hx. inversion Hx; subst; auto.
    + intros H. split; [apply H; left|intros x Hx; apply H; by right].
Qed.

(** *** [findEmptyCell] *)

Lemma findEmptyCell_Some b p :
  findEmptyCell b = Some p → in_grid p ∧ at_ b p = Some 0.
Proof.
  unfold findEmptyCell. intros H. apply find_some in H as [Hin Hz].
  split; [by apply elem_of_positions, list_elem_of_In|by apply is_num_true].
Qed.

Lemma findEmptyCell_None b :
  findEmptyCell b = None → ∀ p, in_grid p → at_ b p ≠ Some 0.
Proof.
  unfold findEmptyCell. intros H p Hp.
  apply is_num_false. apply (find_none _ _ H p).
  by apply list_elem_of_In, elem_of_positions.
Qed.

(** *** [isValidPlacement] *)

Lemma isValidPlacement_true b p v :
  in_grid p →
  isValidPlacement b p.1 p.2 v = true ↔
  ∀ q, in_grid q → same_unit p q → at_ b q ≠ Some v.
Proof.
  intros [Hp1 Hp2]. unfold isValidPlacement, in_grid, same_unit, at_, GRID_SIZE, BLOCK_SIZE in *.
  destruct p as [r c]; cbn [fst snd] in *.
  destruct (existsb _ (seq 0 9)) eqn:E1 at 1.
  { split; [done|]. intros H. exfalso.
    apply existsb_exists in E1 as (x & Hx & Hn). apply in_seq in Hx.
    apply is_num_true in Hn. apply (H (r, x)); simpl; auto with lia. }
  destruct (existsb _ (seq 0 9)) eqn:E2 at 1.
  { split; [done|]. intros H. exfalso.
    apply existsb_exists in E2 as (x & Hx & Hn). apply in_seq in Hx.
    apply is_num_true in Hn. apply (H (x, c)); simpl; auto with lia. }
  destruct (existsb _ (seq 0 3)) eqn:E3 at 1.
  { split; [done|]. intros H. exfalso.
    apply existsb_exists in E3 as (i & Hi & E3).
    apply existsb_exists in E3 as (j & Hj & Hn).
    apply in_seq in Hi, Hj. apply is_num_true in Hn.
    apply (H ((r / 3 * 3 + i)%nat, (c / 3 * 3 + j)%nat)); cbn [fst snd]; [dlia|right; right; dlia|done]. }
  split; [intros _|done]. intros [r' c'] [Hr Hc] Hu; cbn [fst snd] in *.
  apply is_num_false.
  rewrite existsb_false in E1, E2, E3.
  destruct Hu as [->|[->|[Hbr Hbc]]].
  - apply E1. apply elem_of_seq. lia.
  - apply E2. apply elem_of_seq. lia.
  - specialize (E3 (r' mod 3)%nat). rewrite existsb_false in E3.
    replace r' with (r / 3 * 3 + r' mod 3)%nat at 1 by dlia.
    replace c' with (c / 3 * 3 + c' mod 3)%nat at 1 by dlia.
    apply E3; apply elem_of_seq; dlia.
Qed.

(** *** Number of empty cells *)

Lemma empties_bound b : (empties b ≤ 81)%nat.
Proof. unfold empties. etrans; [apply length_filter|]. done. Qed.

Lemma empties_bset b p v :
  wfb b → in_grid p → at_ b p = Some 0 → v ≠ 0 →
  (empties (bset b p.1 p.2 v) < empties b)%nat.
Proof.
  intros Hwf Hp Hz Hv. unfold empties.
  rewrite <- (list_filter_filter_l (λ q, is_num (at_ (bset b p.1 p.2 v) q) 0 = true)
                (λ q, is_num (at_ b q) 0 = true)).
  - apply length_filter_lt with p.
    + apply list_elem_of_filter. split; [by apply is_num_true|by apply elem_of_positions].
    + rewrite is_num_true, at_bset_same by done. congruence.
  - intros q. rewrite !is_num_true. destruct (decide (p = q)) as [<-|Hne].
    + rewrite at_bset_same by done. congruence.
    + by rewrite at_bset_other.
Qed.

(** *** Specification predicates *)

Lemma same_unit_sym p q : same_unit p q → same_unit q p.
Proof. unfold same_unit. intuition. Qed.

Lemma Solution_wfb s : Solution s → wfb s.
Proof. by intros [? _]. Qed.

Lemma keeps_refl b : keeps b b.
Proof. by intros p _ _. Qed.

(** A full, consistent board has exactly itself as completion. *)
Lemma Completion_full b s :
  wfb b → (∀ p, in_grid p → at_ b p ≠ Some 0) → Completion b s → s = b.
Proof.
  intros Hwf Hfull [[Hs _] Hk]. apply board_ext; auto.
Qed.

Lemma Filling_Completion b s : Consistent b → Filling b s → Completion b s.
Proof.
  intros (Hwf & Hrange & Hcons) (Hs & Hk & Hfill). split; [split; [done|split]|done].
  - intros p Hp. destruct (Hrange p Hp) as (v & Ev & Hv).
    destruct (decide (v = 0)) as [->|Hne].
    + by apply Hfill.
    + exists v. rewrite Hk; [split; [done|lia]|done|]. rewrite Ev. congruence.
  - intros p q Hp Hq Hne Hu.
    destruct (decide (at_ b p = Some 0)) as [Ep|Ep].
    { intros E. by apply (proj2 (Hfill p Hp Ep) q Hq). }
    destruct (decide (at_ b q = Some 0)) as [Eq|Eq].
    { intros E. apply (proj2 (Hfill q Hq Eq) p Hp); auto using same_unit_sym. }
    rewrite !Hk by done. by apply Hcons.
Qed.

Lemma Completion_Filling b s : wfb b → Completion b s → Filling b s.
Proof.
  intros Hwf [(Hs & Hr & Hd) Hk]. split; [done|split; [done|]].
  intros p Hp _. split; [by apply Hr|]. intros q Hq Hne Hu.
  apply Hd; auto using same_unit_sym.
Qed.

(** A board that has a completion is consistent. *)
Lemma Completion_Consistent b s :
  wfb b → (∀ p, in_grid p → ∃ v, at_ b p = Some v ∧ 0 ≤ v ≤ 9) →
  Completion b s → Consistent b.
Proof.
  intros Hwf Hr [(Hs & Hsr & Hd) Hk]. split; [done|split; [done|]].
  intros p q Hp Hq Hne Hu Hz E.
  destruct (decide (at_ b q = Some 0)) as [Eq|Eq]; [congruence|].
  apply (Hd p q); auto. rewrite !Hk by done. done.
Qed.

(** *** The list of completions *)

Lemma elem_of_digits v : v ∈ digits ↔ 1 ≤ v ≤ 9.
Proof.
  unfold digits. split.
  - intros H. repeat (apply elem_of_cons in H as [->|H]; [lia|]). inversion H.
  - intros H.
    assert (v = 1 ∨ v = 2 ∨ v = 3 ∨ v = 4 ∨ v = 5 ∨ v = 6 ∨ v = 7 ∨ v = 8 ∨ v = 9)
      as Hv by lia.
    repeat (destruct Hv as [->|Hv];
            [repeat first [apply list_elem_of_here | apply list_elem_of_further]|]).
    subst. repeat first [apply list_elem_of_here | apply list_elem_of_further].
Qed.

Lemma NoDup_digits : NoDup digits.
Proof.
  unfold digits.
  repeat (constructor; [rewrite ?elem_of_cons, elem_of_nil; lia|]). constructor.
Qed.

(** One step of the search: filling the empty cell [p] with a digit that the
    constraint checker accepts. *)
Lemma Filling_step b p v s :
  wfb b → in_grid p → at_ b p = Some 0 → 1 ≤ v ≤ 9 →
  isValidPlacement b p.1 p.2 v = true →
  Filling (bset b p.1 p.2 v) s → Filling b s ∧ at_ s p = Some v.
Proof.
  intros Hwf Hp Hz Hv Hvalid (Hs & Hk & Hfill).
  rewrite isValidPlacement_true in Hvalid by done.
  assert (at_ s p = Some v) as Esp.
  { rewrite Hk, at_bset_same; [done..|]. rewrite at_bset_same by done. intros [=]. lia. }
  assert (keeps b s) as Hk'.
  { intros q Hq Hnz. destruct (decide (p = q)) as [<-|Hne]; [done|].
    rewrite <- (at_bset_other b p q v) by done. apply Hk; [done|].
    by rewrite at_bset_other. }
  split; [|done]. split; [done|split; [done|]].
  intros q Hq Hqz. destruct (decide (p = q)) as [<-|Hne].
  - split; [eauto|]. intros q Hq' Hne Hu. rewrite Esp.
    destruct (decide (at_ b q = Some 0)) as [Eq|Eq].
    + intros E. apply (proj2 (Hfill q Hq' ltac:(by rewrite at_bset_other)) p);
        auto using same_unit_sym. congruence.
    + rewrite Hk' by done. by apply Hvalid.
  - apply Hfill; [done|]. by rewrite at_bset_other.
Qed.

Lemma completions_S n b :
  completions (S n) b =
  match findEmptyCell b with
  | None => [b]
  | Some (row, col) =>
      digits ≫= λ num,
        if isValidPlacement b row col num
        then completions n (bset b row col num) else []
  end.
Proof. reflexivity. Qed.

Lemma completions_sound n b s : wfb b → s ∈ completions n b → Filling b s.
Proof.
  revert b. induction n as [|n IH]; intros b Hwf Hin.
  { inversion Hin. }
  rewrite completions_S in Hin.
  destruct (findEmptyCell b) as [[row col]|] eqn:E.
  - apply findEmptyCell_Some in E as [Hp Hz].
    apply list_elem_of_bind in Hin as (v & Hin & Hv).
    apply elem_of_digits in Hv.
    destruct (isValidPlacement b row col v) eqn:Hvalid; [|inversion Hin].
    apply IH in Hin; [|by apply wfb_bset].
    by apply (Filling_step b (row, col) v s).
  - apply list_elem_of_singleton in Hin as ->.
    split; [done|split; [apply keeps_refl|]].
    intros p Hp Hz. by destruct (findEmptyCell_None b E p Hp).
Qed.

Lemma completions_placed n b p v s :
  wfb b → in_grid p → at_ b p = Some 0 → v ∈ digits →
  s ∈ (if isValidPlacement b p.1 p.2 v
       then completions n (bset b p.1 p.2 v) else []) →
  at_ s p = Some v.
Proof.
  intros Hwf Hp Hz Hv Hin. apply elem_of_digits in Hv.
  destruct (isValidPlacement b p.1 p.2 v) eqn:Hvalid; [|inversion Hin].
  apply completions_sound in Hin; [|by apply wfb_bset].
  by apply (Filling_step b p v s).
Qed.

Lemma completions_NoDup n b : wfb b → NoDup (completions n b).
Proof.
  revert b. induction n as [|n IH]; intros b Hwf.
  { constructor. }
  rewrite completions_S.
  destruct (findEmptyCell b) as [[row col]|] eqn:E.
  - apply findEmptyCell_Some in E as [Hp Hz].
    apply NoDup_bind; [| |apply NoDup_digits].
    + intros v1 v2 s Hv1 Hv2 H1 H2.
      apply (completions_placed n b (row, col)) in H1, H2; try done. congruence.
    + intros v _. destruct (isValidPlacement b row col v); [|constructor].
      by apply IH, wfb_bset.
  - apply NoDup_singleton.
Qed.

Lemma completions_complete n b s :
  wfb b → (empties b < n)%nat → Completion b s → s ∈ completions n b.
Proof.
  revert b. induction n as [|n IH]; intros b Hwf Hn Hc; [lia|].
  rewrite completions_S.
  destruct (findEmptyCell b) as [[row col]|] eqn:E.
  - apply findEmptyCell_Some in E as [Hp Hz].
    destruct Hc as [(Hs & Hr & Hd) Hk].
    destruct (Hr _ Hp) as (v & Ev & Hv).
    apply list_elem_of_bind. exists v. split; [|by apply elem_of_digits].
    assert (isValidPlacement b row col v = true) as ->.
    { apply (isValidPlacement_true b (row, col) v); [done|].
      intros q Hq Hu Eq. destruct (decide ((row, col) = q)) as [<-|Hne].
      - rewrite Hz in Eq. injection Eq. lia.
      - apply (Hd (row, col) q); try done. rewrite Ev, (Hk q), Eq; [done..|].
        rewrite Eq. intros [=]. lia. }
    apply IH; [by apply wfb_bset| |].
    + pose proof (empties_bset b (row, col) v Hwf Hp Hz). simpl in *. lia.
    + split; [done|]. intros q Hq Hnz.
      destruct (decide ((row, col) = q)) as [<-|Hne].
      * by rewrite (at_bset_same b (row, col)).
      * rewrite (at_bset_other b (row, col)) in * by done. by apply Hk.
  - apply list_elem_of_singleton.
    apply Completion_full; auto using findEmptyCell_None.
Qed.

(** On a consistent grid, [completions] lists exactly the completions, each
    once. *)
Lemma completions_spec n b s :
  Consistent b → (empties b < n)%nat → s ∈ completions n b ↔ Completion b s.
Proof.
  intros Hc Hn. split.
  - intros H. apply Filling_Completion; [done|].
    apply (completions_sound n); [apply Hc|done].
  - apply completions_complete; [apply Hc|done].
Qed.

(** ** The heap: reads, writes and frames *)

Lemma frame_refl g h : frame g h h.
Proof. by split. Qed.

Lemma frame_trans g h1 h2 h3 : frame g h1 h2 → frame g h2 h3 → frame g h1 h3.
Proof.
  intros [L1 F1] [L2 F2]. split; [congruence|].
  intros l Hl. by rewrite F2, F1.
Qed.

Lemma wfb_view h g : wf h g → wfb (view h g).
Proof.
  intros (_ & Hl & Hr). split.
  - unfold view. by rewrite length_fmap.
  - unfold view. apply Forall_fmap, Forall_forall. intros l Hin. simpl.
    destruct (Hr l Hin) as (r & -> & Hlen). done.
Qed.

Lemma view_wr h g row col v :
  NoDup g → view (wr h g row col v) g = bset (view h g) row col v.
Proof.
  intros Hnd. unfold view, wr, bset.
  destruct (g !! row) as [l|] eqn:E.
  - apply list_eq. intros i. rewrite list_lookup_fmap.
    destruct (decide (i = row)) as [->|Hne].
    + rewrite list_lookup_alter_eq, list_lookup_fmap, E. simpl.
      rewrite list_lookup_alter_eq. by destruct (h !! l).
    + rewrite list_lookup_alter_ne, list_lookup_fmap by done.
      destruct (g !! i) as [l'|] eqn:E'; simpl; [|done].
      rewrite list_lookup_alter_ne; [done|]. intros <-.
      apply Hne. by apply (NoDup_lookup g i row l).
  - symmetry. apply list_eq. intros i.
    destruct (decide (i = row)) as [->|Hne].
    + rewrite list_lookup_alter_eq, list_lookup_fmap, E. done.
    + by rewrite list_lookup_alter_ne.
Qed.

Lemma wf_wr h g row col v : wf h g → wf (wr h g row col v) g.
Proof.
  intros (Hnd & Hl & Hr). split; [done|split; [done|]].
  intros l Hin. destruct (Hr l Hin) as (r & Er & Hlen). unfold wr.
  destruct (g !! row) as [l'|]; [|eauto].
  destruct (decide (l' = l)) as [->|Hne].
  - rewrite list_lookup_alter_eq, Er. simpl. eexists. split; [done|].
    by rewrite length_insert.
  - rewrite list_lookup_alter_ne by done. eauto.
Qed.

Lemma frame_wr h g row col v : frame g h (wr h g row col v).
Proof.
  unfold wr. destruct (g !! row) as [l|] eqn:E; [|apply frame_refl].
  split; [by rewrite length_alter|].
  intros l' Hl'. apply list_lookup_alter_ne. intros <-.
  apply Hl'. by apply list_elem_of_lookup_2 in E.
Qed.

Lemma wr_wr h g row col v w :
  wr (wr h g row col v) g row col w = wr h g row col w.
Proof.
  unfold wr. destruct (g !! row) as [l|]; [|done].
  rewrite list_alter_alter_eq. apply list_alter_ext; [|done].
  intros x _. simpl. by rewrite list_insert_insert_eq.
Qed.

Lemma wr_same h g row col v :
  cell (view h g) row col = Some v → wr h g row col v = h.
Proof.
  unfold cell, view, wr. rewrite list_lookup_fmap.
  destruct (g !! row) as [l|]; simpl; [|done].
  destruct (h !! l) as [r|] eqn:E; simpl; [|done]. intros Hc.
  apply list_eq. intros i. destruct (decide (i = l)) as [->|Hne].
  - rewrite list_lookup_alter_eq, E. simpl. by rewrite list_insert_id.
  - by rewrite list_lookup_alter_ne.
Qed.

(** Writing a digit into a cell and then the old value back leaves the heap
    as it was. *)
Lemma wr_undo h g row col v w :
  cell (view h g) row col = Some w → wr (wr h g row col v) g row col w = h.
Proof. intros H. by rewrite wr_wr, wr_same. Qed.

(** Copies. *)
Lemma view_app h h' g :
  (∀ l, l ∈ g → (l < length h)%nat) → view (h ++ h') g = view h g.
Proof.
  intros Hg. unfold view. apply list_fmap_ext. intros i l Hl.
  rewrite lookup_app_l; [done|]. apply Hg. by apply list_elem_of_lookup_2 in Hl.
Qed.

Lemma view_fresh h rows : view (h ++ rows) (seq (length h) (length rows)) = rows.
Proof.
  unfold view. apply list_eq. intros i. rewrite list_lookup_fmap.
  destruct (decide (i < length rows)%nat) as [Hi|Hi].
  - rewrite lookup_seq_lt by done. simpl.
    rewrite lookup_app_r by lia. replace (length h + i - length h)%nat with i by lia.
    destruct (lookup_lt_is_Some_2 rows i Hi) as [r Er]. by rewrite Er.
  - rewrite lookup_seq_ge by lia. simpl. symmetry. apply lookup_ge_None. lia.
Qed.

Lemma wf_fresh h rows :
  wfb rows → wf (h ++ rows) (seq (length h) (length rows)).
Proof.
  intros [Hl Hr]. split; [apply NoDup_seq|split; [by rewrite length_seq|]].
  intros l Hin. apply elem_of_seq in Hin.
  rewrite lookup_app_r by lia.
  destruct (lookup_lt_is_Some_2 rows (l - length h)) as [r Er]; [lia|].
  exists r. split; [done|]. rewrite Forall_forall in Hr.
  eauto using list_elem_of_lookup_2.
Qed.

(** ** The solution counter *)

Lemma cap_0 c : cap c 0 = c.
Proof. unfold cap. case_decide; lia. Qed.

Lemma cap_cap c n m : cap (cap c n) m = cap c (n + m).
Proof. unfold cap. repeat case_decide; lia. Qed.

Lemma countSolutions_loop_spec n g row col rec nums h c :
  wf h g → in_grid (row, col) → at_ (view h g) (row, col) = Some 0 →
  Forall (λ v, v ≠ 0) nums →
  (∀ h' c', wf h' g → (empties (view h' g) < n)%nat →
     rec h' c' = Some (h', cap c' (length (completions n (view h' g))))) →
  (empties (view h g) ≤ n)%nat →
  countSolutions_loop rec g row col nums h c =
  Some (h, cap c (length (nums ≫= branch n (view h g) row col))).
Proof.
  intros Hwf Hp Hz Hnums Hrec Hn. revert c.
  induction Hnums as [|num nums Hnum _ IH]; intros c.
  { simpl. by rewrite cap_0. }
  rewrite bind_cons, length_app, <- cap_cap. cbn [countSolutions_loop].
  unfold branch at 1. destruct (isValidPlacement (view h g) row col num).
  - rewrite Hrec; [|by apply wf_wr|].
    + simpl. rewrite wr_undo by done.
      rewrite view_wr by apply Hwf. apply IH.
    + rewrite view_wr by apply Hwf.
      pose proof (empties_bset (view h g) (row, col) num (wfb_view _ _ Hwf) Hp Hz Hnum).
      simpl in *. lia.
  - simpl. rewrite cap_0. apply IH.
Qed.

Lemma countSolutions_spec n g h c :
  wf h g → (empties (view h g) < n)%nat →
  countSolutions n g h c = Some (h, cap c (length (completions n (view h g)))).
Proof.
  revert h c. induction n as [|n IH]; intros h c Hwf Hn; [lia|].
  cbn [countSolutions]. rewrite completions_S. unfold cap at 1.
  case_decide; [done|].
  destruct (findEmptyCell (view h g)) as [[row col]|] eqn:E.
  - apply findEmptyCell_Some in E as [Hp Hz].
    rewrite (countSolutions_loop_spec n); try done.
    + unfold cap. by rewrite decide_False.
    + apply Forall_forall. intros v Hv%elem_of_digits. lia.
    + lia.
  - simpl. do 2 f_equal. lia.
Qed.

(** ** The solver *)

Lemma solve_loop_spec n g row col rec nums h :
  wf h g → in_grid (row, col) → at_ (view h g) (row, col) = Some 0 →
  Forall (λ v, v ≠ 0) nums →
  (∀ h', wf h' g → (empties (view h' g) < n)%nat →
     finds g h' (completions n (view h' g)) (rec h')) →
  (empties (view h g) ≤ n)%nat →
  finds g h (nums ≫= branch n (view h g) row col)
        (solve_loop rec g row col nums h).
Proof.
  intros Hwf Hp Hz Hnums Hrec Hn.
  induction Hnums as [|num nums Hnum _ IH]; [done|].
  rewrite bind_cons. cbn [solve_loop]. unfold branch at 1.
  destruct (isValidPlacement (view h g) row col num); [|done].
  specialize (Hrec (wr h g row col num) (wf_wr _ _ _ _ _ Hwf)).
  rewrite view_wr in Hrec by apply Hwf.
  pose proof (empties_bset (view h g) (row, col) num (wfb_view _ _ Hwf) Hp Hz Hnum) as He.
  simpl in He. specialize (Hrec ltac:(lia)). unfold finds in Hrec.
  destruct (completions n (bset (view h g) row col num)) as [|s l].
  - rewrite Hrec. simpl. by rewrite wr_undo.
  - destruct Hrec as (h' & -> & Hv & Hwf' & Hf). simpl.
    exists h'. split_and!; try done. eapply frame_trans; [apply frame_wr|done].
Qed.

Lemma solve_spec n g h :
  wf h g → (empties (view h g) < n)%nat →
  finds g h (completions n (view h g)) (solve n g h).
Proof.
  revert h. induction n as [|n IH]; intros h Hwf Hn; [lia|].
  cbn [solve]. rewrite completions_S.
  destruct (findEmptyCell (view h g)) as [[row col]|] eqn:E.
  - apply findEmptyCell_Some in E as [Hp Hz].
    apply (solve_loop_spec n); try done; [|lia].
    apply Forall_forall. intros v Hv%elem_of_digits. lia.
  - simpl. exists h. by split_and!.
Qed.

(** ** The random source and the shuffle *)

Section Random.

Variable random : nat → Q.
Hypothesis random_range : ∀ k, (0 <= random k)%Q ∧ (random k < 1)%Q.

Lemma draw_range k n :
  0 < n → 0 ≤ Qfloor (random k * inject_Z n) < n.
Proof.
  intros Hn. destruct (random_range k) as [H0 H1]. split.
  - change 0 with (Qfloor 0). apply Qfloor_resp_le.
    apply Qmult_le_0_compat; [done|]. change 0%Q with (inject_Z 0).
    rewrite <- Zle_Qle. lia.
  - rewrite Zlt_Qlt. eapply Qle_lt_trans; [apply Qfloor_le|].
    apply Qlt_le_trans with (1 * inject_Z n)%Q.
    + apply Qmult_lt_compat_r; [|done]. change 0%Q with (inject_Z 0).
      by rewrite <- Zlt_Qlt.
    + rewrite Qmult_1_l. apply Qle_refl.
Qed.

Lemma randomInRange_range k min max :
  min ≤ max → min ≤ (randomInRange random k min max).1 ≤ max.
Proof.
  intros Hm. unfold randomInRange. cbn [fst].
  pose proof (draw_range k (max - min + 1)). lia.
Qed.

Lemma swap_perm {A} `{Inhabited A} (a : list A) i j :
  (i < length a)%nat → (j < length a)%nat → swap a i j ≡ₚ a.
Proof.
  intros Hi Hj. unfold swap.
  apply Permutation_insert_swap; by apply list_lookup_lookup_total_lt.
Qed.

Lemma shuffle_from_perm {A} `{Inhabited A} i k (l : list A) :
  (i < length l)%nat → (shuffle_from random i k l).1 ≡ₚ l.
Proof.
  revert k l. induction i as [|i IH]; intros k l Hi; [done|].
  cbn [shuffle_from].
  pose proof (draw_range k (Z.of_nat (S i) + 1) ltac:(lia)) as Hj.
  set (j := Z.to_nat _) in *.
  assert (swap l (S i) j ≡ₚ l) as Hs by (apply swap_perm; lia).
  rewrite IH; [done|]. apply Permutation_length in Hs. lia.
Qed.

Lemma shuffleArray_perm {A} `{Inhabited A} k (l : list A) :
  (shuffleArray random k l).1 ≡ₚ l.
Proof.
  unfold shuffleArray. destruct l as [|x l]; [done|].
  apply shuffle_from_perm. simpl. lia.
Qed.

(** ** The solution generator *)

Lemma fills_perm g h l l' res : l ≡ₚ l' → fills g h l res → fills g h l' res.
Proof.
  intros Hp (k' & h' & filled & -> & Hr). exists k', h', filled. split; [done|].
  destruct filled.
  - by rewrite <- Hp.
  - destruct Hr as [-> ->]. split; [done|]. symmetry. by apply Permutation_nil_l.
Qed.

Lemma fillGrid_loop_spec n g row col rec numbers k h :
  wf h g → in_grid (row, col) → at_ (view h g) (row, col) = Some 0 →
  Forall (λ v, v ≠ 0) numbers →
  (∀ k' h', wf h' g → (empties (view h' g) < n)%nat →
     fills g h' (completions n (view h' g)) (rec k' h')) →
  (empties (view h g) ≤ n)%nat →
  fills g h (numbers ≫= branch n (view h g) row col)
        (fillGrid_loop rec g row col numbers k h).
Proof.
  intros Hwf Hp Hz Hnums Hrec Hn. revert k.
  induction Hnums as [|num nums Hnum _ IH]; intros k.
  { by exists k, h, false. }
  rewrite bind_cons. cbn [fillGrid_loop]. unfold branch at 1.
  destruct (isValidPlacement (view h g) row col num); [|apply IH].
  specialize (Hrec k (wr h g row col num) (wf_wr _ _ _ _ _ Hwf)).
  rewrite view_wr in Hrec by apply Hwf.
  pose proof (empties_bset (view h g) (row, col) num (wfb_view _ _ Hwf) Hp Hz Hnum) as He.
  simpl in He. destruct (Hrec ltac:(lia)) as (k' & h' & filled & -> & Hr).
  simpl. destruct filled.
  - destruct Hr as (Hin & Hwf' & Hf). exists k', h', true. split; [done|].
    split_and!; [|done|].
    + apply elem_of_app. by left.
    + eapply frame_trans; [apply frame_wr|done].
  - destruct Hr as [-> ->]. rewrite wr_undo by done. apply IH.
Qed.

Lemma fillGrid_spec n g k h :
  wf h g → (empties (view h g) < n)%nat →
  fills g h (completions n (view h g)) (fillGrid random n g k h).
Proof.
  revert k h. induction n as [|n IH]; intros k h Hwf Hn; [lia|].
  cbn [fillGrid]. rewrite completions_S.
  destruct (findEmptyCell (view h g)) as [[row col]|] eqn:E.
  - apply findEmptyCell_Some in E as [Hp Hz].
    pose proof (shuffleArray_perm k digits) as Hperm.
    destruct (shuffleArray random k digits) as [numbers k'].
    simpl in Hperm.
    apply (fills_perm _ _ (numbers ≫= branch n (view h g) row col)).
    { by rewrite Hperm. }
    apply (fillGrid_loop_spec n); try done; [|lia].
    apply Forall_forall. intros v Hv. rewrite Hperm in Hv.
    apply elem_of_digits in Hv. lia.
  - exists k, h, true. split; [done|]. split_and!; [|done|apply frame_refl].
    apply list_elem_of_here.
Qed.

End Random.

(** ** Rows, columns and blocks as lists of digits *)

Lemma same_unitb_true p q : same_unitb p q = true ↔ same_unit p q.
Proof.
  unfold same_unitb, same_unit.
  rewrite !orb_true_iff, andb_true_iff, !bool_decide_eq_true. tauto.
Qed.

Lemma forallb_elem_of {A} (f : A → bool) l :
  forallb f l = true ↔ ∀ x, x ∈ l → f x = true.
Proof.
  rewrite forallb_forall. split; intros H x Hx; apply H; by apply list_elem_of_In.
Qed.

Lemma unit_okb_correct ps : unit_okb ps = true → unit_ok ps.
Proof.
  unfold unit_okb, unit_ok. rewrite !andb_true_iff, !bool_decide_eq_true.
  rewrite !forallb_elem_of. intros [[[Hnd Hl] Hg] Hu]. split_and!; [done..| |].
  - intros p Hp. apply elem_of_positions. specialize (Hg p Hp).
    by apply bool_decide_eq_true in Hg.
  - intros p q Hp Hq. apply same_unitb_true.
    specialize (Hu p Hp). rewrite forallb_elem_of in Hu. auto.
Qed.

Lemma row_cells_ok i : (i < 9)%nat → unit_ok (row_cells i).
Proof.
  intros Hi. do 9 (destruct i as [|i]; [by apply unit_okb_correct|]). lia.
Qed.

Lemma col_cells_ok i : (i < 9)%nat → unit_ok (col_cells i).
Proof.
  intros Hi. do 9 (destruct i as [|i]; [by apply unit_okb_correct|]). lia.
Qed.

Lemma block_cells_ok i : (i < 9)%nat → unit_ok (block_cells i).
Proof.
  intros Hi. do 9 (destruct i as [|i]; [by apply unit_okb_correct|]). lia.
Qed.

(** Nine cells holding digits, no two the same, hold each digit once. *)
Lemma values_perm s ps :
  NoDup ps → length ps = GRID_SIZE →
  (∀ p, p ∈ ps → ∃ v, at_ s p = Some v ∧ 1 ≤ v ≤ 9) →
  (∀ p q, p ∈ ps → q ∈ ps → p ≠ q → at_ s p ≠ at_ s q) →
  values s ps ≡ₚ digits.
Proof.
  intros Hnd Hlen Hv Hd.
  assert (NoDup (values s ps) ∧ length (values s ps) = length ps ∧
          ∀ v, v ∈ values s ps → ∃ p, p ∈ ps ∧ at_ s p = Some v) as (Hnd' & Hlen' & Hin').
  { clear Hlen. unfold values. induction Hnd as [|p ps Hp Hnd IH].
    { split_and!; [constructor|done|]. intros v Hv'. inversion Hv'. }
    destruct IH as (IH1 & IH2 & IH3).
    { intros q Hq. apply Hv. by right. }
    { intros q q' Hq Hq'. apply Hd; by right. }
    destruct (Hv p) as (v & Ev & _); [by left|].
    simpl. rewrite Ev. simpl. split_and!.
    - constructor; [|done]. intros Hin. destruct (IH3 v Hin) as (q & Hq & Eq).
      apply (Hd p q); [by left|by right| |congruence]. intros ->. done.
    - simpl. by f_equal.
    - intros w Hw. apply elem_of_cons in Hw as [->|Hw].
      + exists p. split; [by left|done].
      + destruct (IH3 w Hw) as (q & Hq & Eq). exists q. split; [by right|done]. }
  apply submseteq_length_Permutation.
  - apply NoDup_submseteq; [done|]. intros v Hin.
    destruct (Hin' v Hin) as (p & Hp & Ep). destruct (Hv p Hp) as (w & Ew & Hw).
    apply elem_of_digits. congruence.
  - rewrite Hlen', Hlen. done.
Qed.

Lemma Solution_unit s ps : Solution s → unit_ok ps → values s ps ≡ₚ digits.
Proof.
  intros (Hs & Hr & Hd) (Hnd & Hlen & Hg & Hu).
  apply values_perm; auto.
Qed.

(** ** Decidable checks *)

Lemma wfbb_true b : wfbb b = true ↔ wfb b.
Proof.
  unfold wfbb, wfb. rewrite andb_true_iff, bool_decide_eq_true, forallb_elem_of.
  rewrite Forall_forall. split; intros [H1 H2]; (split; [done|]); intros r Hr.
  - specialize (H2 r Hr). by apply bool_decide_eq_true in H2.
  - apply bool_decide_eq_true. auto.
Qed.

Lemma Solutionb_true s : Solutionb s = true → Solution s.
Proof.
  unfold Solutionb, Solution. rewrite !andb_true_iff, wfbb_true, !forallb_elem_of.
  intros [[Hwf Hr] Hd]. split_and!; [done| |].
  - intros p Hp%elem_of_positions. specialize (Hr p Hp).
    destruct (at_ s p) as [v|]; [|done]. apply bool_decide_eq_true in Hr. eauto.
  - intros p q Hp%elem_of_positions Hq%elem_of_positions Hne Hu%same_unitb_true.
    specialize (Hd p Hp). rewrite forallb_elem_of in Hd. specialize (Hd q Hq).
    rewrite !orb_true_iff, !negb_true_iff, bool_decide_eq_true, bool_decide_eq_false in Hd.
    destruct Hd as [[?|?]|?]; [done|congruence|done].
Qed.

Lemma Consistentb_true b : Consistentb b = true → Consistent b.
Proof.
  unfold Consistentb, Consistent. rewrite !andb_true_iff, wfbb_true, !forallb_elem_of.
  intros [[Hwf Hr] Hd]. split_and!; [done| |].
  - intros p Hp%elem_of_positions. specialize (Hr p Hp).
    destruct (at_ b p) as [v|]; [|done]. apply bool_decide_eq_true in Hr. eauto.
  - intros p q Hp%elem_of_positions Hq%elem_of_positions Hne Hu%same_unitb_true Hz.
    specialize (Hd p Hp). rewrite forallb_elem_of in Hd. specialize (Hd q Hq).
    rewrite !orb_true_iff, !negb_true_iff, bool_decide_eq_true, bool_decide_eq_false in Hd.
    rewrite is_num_true in Hd.
    destruct Hd as [[[?|?]|?]|?]; [done|congruence|done..].
Qed.

Lemma Solution_Consistent s : Solution s → Consistent s.
Proof.
  intros (Hwf & Hr & Hd). split_and!; [done| |].
  - intros p Hp. destruct (Hr p Hp) as (v & Ev & Hv). exists v. split; [done|lia].
  - intros p q Hp Hq Hne Hu _. by apply Hd.
Qed.

(** ** The empty grid and a known solution *)

Lemma known_solution_Solution : Solution known_solution.
Proof. by apply Solutionb_true. Qed.

Lemma empty_board_Consistent : Consistent empty_board.
Proof. by apply Consistentb_true. Qed.

Lemma at_empty_board p : in_grid p → at_ empty_board p = Some 0.
Proof.
  intros Hp%elem_of_positions.
  assert (forallb (λ p, is_num (at_ empty_board p) 0) positions = true) as H by done.
  rewrite forallb_elem_of in H. by apply is_num_true, H.
Qed.

Lemma empty_board_has_completion : Completion empty_board known_solution.
Proof.
  split; [apply known_solution_Solution|]. intros p Hp Hz.
  destruct Hz. by apply at_empty_board.
Qed.

Lemma FUEL_enough b : (empties b < FUEL)%nat.
Proof. pose proof (empties_bound b). unfold FUEL, GRID_SIZE. lia. Qed.

Section Generator.

Variable random : nat → Q.
Hypothesis random_range : ∀ k, (0 <= random k)%Q ∧ (random k < 1)%Q.

Lemma generateSolution_Solution k h :
  ∃ k' h' grid, generateSolution random k h = Some (k', h', grid) ∧
    Solution (view h' grid) ∧ wf h' grid ∧
    ∀ l, (l < length h)%nat → h' !! l = h !! l.
Proof.
  unfold generateSolution, newGrid.
  set (h0 := h ++ replicate GRID_SIZE (replicate GRID_SIZE 0)).
  set (g := seq (length h) GRID_SIZE).
  assert (wf h0 g) as Hwf by (apply (wf_fresh h empty_board), empty_board_Consistent).
  assert (view h0 g = empty_board) as Hview by apply (view_fresh h empty_board).
  destruct (fillGrid_spec random random_range FUEL g k h0 Hwf (FUEL_enough _))
    as (k' & h' & filled & -> & Hr).
  exists k', h', g. split; [done|]. destruct filled.
  - destruct Hr as (Hin & Hwf' & Hf). split_and!; [|done|].
    + rewrite Hview in Hin. apply completions_spec in Hin;
        [apply Hin|apply empty_board_Consistent|apply FUEL_enough].
    + intros l Hl. rewrite (proj2 Hf l).
      * unfold h0. by rewrite lookup_app_l.
      * intros Hl'%elem_of_seq. lia.
  - destruct Hr as [_ Hnil]. exfalso. rewrite Hview in Hnil.
    pose proof (completions_complete FUEL empty_board known_solution
      (proj1 empty_board_Consistent) (FUEL_enough _) empty_board_has_completion) as Hin.
    rewrite Hnil in Hin. inversion Hin.
Qed.

End Generator.

(** ** The carver *)

Lemma Sub_refl s : wfb s → Sub s s.
Proof. intros H. split; [done|]. intros; by right. Qed.

Lemma Sub_bset s p pos : Sub s p → in_grid pos → Sub s (bset p pos.1 pos.2 0).
Proof.
  intros [Hwf Hs] Hpos. split; [by apply wfb_bset|]. intros q Hq.
  destruct (decide (pos = q)) as [<-|Hne].
  - left. by apply at_bset_same.
  - rewrite at_bset_other by done. auto.
Qed.

Lemma Sub_Completion s p : Solution s → Sub s p → Completion p s.
Proof.
  intros Hs [Hwf Hsub]. split; [done|]. intros pos Hpos Hnz.
  by destruct (Hsub pos Hpos).
Qed.

Lemma Sub_Consistent s p : Solution s → Sub s p → Consistent p.
Proof.
  intros Hs Hsub. apply (Completion_Consistent p s); [apply Hsub| |by apply Sub_Completion].
  intros pos Hpos. destruct (proj2 Hsub pos Hpos) as [E|E].
  - exists 0. split; [done|lia].
  - destruct (proj1 (proj2 Hs) pos Hpos) as (v & Ev & Hv).
    exists v. split; [congruence|lia].
Qed.

(** The completions of a sub-board of [s], listed without repetition, are
    the single [s] iff [s] is the only completion. *)
Lemma single_completion n s p :
  Solution s → Sub s p → (empties p < n)%nat →
  length (completions n p) = 1%nat ↔ ∀ s', Completion p s' → s' = s.
Proof.
  intros Hs Hsub Hn.
  pose proof (Sub_Consistent s p Hs Hsub) as Hc.
  pose proof (completions_NoDup n p (proj1 Hsub)) as Hnd.
  assert (s ∈ completions n p) as Hin
    by (apply completions_spec; [done..|by apply Sub_Completion]).
  split.
  - intros Hlen s' Hs'%(completions_spec n); [|done..].
    destruct (completions n p) as [|x [|y l]]; try done.
    apply list_elem_of_singleton in Hin, Hs'. congruence.
  - intros Hu. destruct (completions n p) as [|x [|y l]] eqn:E; [inversion Hin|done|].
    exfalso. apply NoDup_cons in Hnd as [Hx _]. apply Hx.
    assert (∀ z, z ∈ x :: y :: l → z = s) as Hall.
    { intros z Hz. apply Hu. rewrite <- E in Hz. by apply completions_spec in Hz. }
    rewrite (Hall x), <- (Hall y); [left|right; left|left].
Qed.

(** Counting the visible cells. *)

Lemma NoDup_positions : NoDup positions.
Proof. by apply (bool_decide_unpack _). Qed.

Lemma filter_ext_elem {A} (P Q : A → Prop)
    `{!∀ x, Decision (P x), !∀ x, Decision (Q x)} (l : list A) :
  (∀ x, x ∈ l → P x ↔ Q x) → filter P l = filter Q l.
Proof.
  induction l as [|a l IH]; intros Hext; [done|].
  rewrite !filter_cons. rewrite IH by (intros; apply Hext; by right).
  assert (P a ↔ Q a) as Ha by (apply Hext; by left).
  destruct (decide (P a)), (decide (Q a)); tauto.
Qed.

Lemma filter_all {A} (P : A → Prop) `{!∀ x, Decision (P x)} (l : list A) :
  (∀ x, x ∈ l → P x) → filter P l = l.
Proof.
  induction l as [|a l IH]; intros Hall; [done|].
  rewrite filter_cons_True by (apply Hall; by left).
  f_equal. apply IH. intros; apply Hall; by right.
Qed.

Lemma filter_drop_one {A} `{!EqDecision A} (P Q : A → Prop)
    `{!∀ x, Decision (P x), !∀ x, Decision (Q x)} (l : list A) x :
  NoDup l → x ∈ l → P x → ¬ Q x → (∀ y, y ≠ x → P y ↔ Q y) →
  length (filter P l) = S (length (filter Q l)).
Proof.
  intros Hnd Hx HP HQ Hiff. induction Hnd as [|a l Ha Hnd IH]; [inversion Hx|].
  rewrite !filter_cons. destruct (decide (a = x)) as [->|Hne].
  - rewrite decide_True, decide_False by done. simpl. f_equal. f_equal.
    apply filter_ext_elem. intros y Hy. apply Hiff. by intros ->.
  - apply elem_of_cons in Hx as [->|Hx]; [done|]. specialize (IH Hx).
    destruct (decide (P a)) as [Hp|Hp].
    + rewrite decide_True by (by apply Hiff). simpl. by rewrite IH.
    + rewrite decide_False by (by rewrite <- Hiff). done.
Qed.

Lemma visible_bset p pos :
  wfb p → in_grid pos → at_ p pos ≠ Some 0 →
  visible p = S (visible (bset p pos.1 pos.2 0)).
Proof.
  intros Hwf Hpos Hnz. unfold visible.
  apply (filter_drop_one _ _ positions pos).
  - apply NoDup_positions.
  - by apply elem_of_positions.
  - by apply is_num_false.
  - rewrite is_num_false, at_bset_same by done. by intros [].
  - intros q Hne. by rewrite at_bset_other.
Qed.

Lemma visible_Solution s : Solution s → visible s = 81%nat.
Proof.
  intros (Hwf & Hr & _). unfold visible.
  rewrite filter_all; [done|].
  - intros p Hp%elem_of_positions.
    apply is_num_false. destruct (Hr p Hp) as (v & -> & Hv). intros [=]. lia.
Qed.

(** From here on the searches are used through their specifications only;
    the fuel bound stays folded. *)
Arguments completions : simpl never.
Arguments countSolutions : simpl never.
Arguments solve : simpl never.
Arguments fillGrid : simpl never.
Opaque FUEL.

Lemma view_locs h g l : wfb (view h g) → l ∈ g → (l < length h)%nat.
Proof.
  intros [_ Hr] Hl. rewrite Forall_forall in Hr.
  specialize (Hr (default [] (h !! l))).
  destruct (h !! l) as [r|] eqn:E; [by apply lookup_lt_Some in E|].
  exfalso. simpl in Hr. unfold GRID_SIZE in Hr.
  assert ([] ∈ view h g) as Hin.
  { unfold view. apply list_elem_of_fmap. exists l. by rewrite E. }
  specialize (Hr Hin). done.
Qed.

Lemma view_ext h h' g : (∀ l, l ∈ g → h' !! l = h !! l) → view h' g = view h g.
Proof.
  intros H. unfold view. apply list_fmap_ext. intros i l Hl. simpl.
  rewrite H; [done|]. by apply list_elem_of_lookup_2 in Hl.
Qed.

(** The copy made by [copyGrid] is a well-formed grid of fresh rows with the
    contents of the original. *)
Lemma copyGrid_spec h g :
  wfb (view h g) →
  let '(h', g') := copyGrid h g in
  h' = h ++ view h g ∧ wf h' g' ∧ view h' g' = view h g ∧ view h' g = view h g ∧
  (∀ l, l ∈ g' → (length h ≤ l)%nat).
Proof.
  intros Hwf. unfold copyGrid.
  replace (length g) with (length (view h g)) by (unfold view; by rewrite length_fmap).
  split_and!; [done|by apply wf_fresh|apply view_fresh| |].
  - apply view_app. intros l Hl. by apply (view_locs h g).
  - intros l Hl%elem_of_seq. lia.
Qed.

Lemma carve_cons pz target row col rest h removed :
  carve pz target ((row, col) :: rest) h removed =
  if decide (removed >= target) then Some (h, removed)
  else match countSolutions FUEL pz (wr h pz row col 0) 0 with
       | Some (h1, solutionCount) =>
           if decide (solutionCount = 1)
           then carve pz target rest h1 (removed + 1)
           else carve pz target rest
                  (restore h1 pz row col (cell (view h pz) row col)) removed
       | None => None
       end.
Proof. reflexivity. Qed.

Lemma carve_total pz target rest h removed :
  wf h pz →
  ∃ h' removed', carve pz target rest h removed = Some (h', removed') ∧
    wf h' pz ∧ frame pz h h'.
Proof.
  revert h removed. induction rest as [|[row col] rest IH]; intros h removed Hwf.
  { exists h, removed. split_and!; [done..|apply frame_refl]. }
  rewrite carve_cons. case_decide.
  { exists h, removed. split_and!; [done..|apply frame_refl]. }
  rewrite countSolutions_spec; [|by apply wf_wr|apply FUEL_enough]. cbv beta iota.
  pose proof (frame_wr h pz row col 0) as Hf1.
  pose proof (wf_wr h pz row col 0 Hwf) as Hwf1.
  case_decide.
  - destruct (IH (wr h pz row col 0) (removed + 1) Hwf1) as (h' & r' & -> & ? & ?).
    exists h', r'. split_and!; [done..|]. by eapply frame_trans.
  - set (h2 := restore _ _ _ _ _).
    assert (wf h2 pz ∧ frame pz h h2) as [Hwf2 Hf2].
    { unfold h2, restore. destruct (cell _ _ _); [|done].
      split; [by apply wf_wr|]. eapply frame_trans; [done|apply frame_wr]. }
    destruct (IH h2 removed Hwf2) as (h' & r' & -> & ? & ?).
    exists h', r'. split_and!; [done..|]. by eapply frame_trans.
Qed.

Lemma carve_spec s pz target rest h removed :
  Solution s → wf h pz → Sub s (view h pz) →
  (∀ s', Completion (view h pz) s' → s' = s) →
  NoDup rest →
  (∀ pos, pos ∈ rest → in_grid pos ∧ at_ (view h pz) pos ≠ Some 0) →
  Z.of_nat (visible (view h pz)) = 81 - removed → removed ≤ target →
  ∃ h' removed', carve pz target rest h removed = Some (h', removed') ∧
    wf h' pz ∧ frame pz h h' ∧ Sub s (view h' pz) ∧
    (∀ s', Completion (view h' pz) s' → s' = s) ∧
    Z.of_nat (visible (view h' pz)) = 81 - removed' ∧ removed' ≤ target.
Proof.
  intros Hs. revert h removed.
  induction rest as [|[row col] rest IH];
    intros h removed Hwf Hsub Hu Hnd Hrest Hvis Hrem.
  { exists h, removed. split_and!; try done. }
  rewrite carve_cons. case_decide as Hbreak.
  { exists h, removed. split_and!; try done. }
  apply NoDup_cons in Hnd as [Hnotin Hnd].
  destruct (Hrest (row, col)) as [Hpos Hnz]; [by left|].
  destruct (wfb_cell (view h pz) (row, col) (proj1 Hsub) Hpos) as (v & Ev).
  change (cell (view h pz) row col) with (at_ (view h pz) (row, col)). rewrite Ev.
  pose proof (wf_wr h pz row col 0 Hwf) as Hwf1.
  pose proof (Sub_bset s _ (row, col) Hsub Hpos) as Hsub1.
  rewrite <- view_wr in Hsub1 by apply Hwf.
  rewrite countSolutions_spec; [|done|apply FUEL_enough]. cbv beta iota.
  pose proof (single_completion FUEL s _ Hs Hsub1 (FUEL_enough _)) as Hsingle.
  unfold cap. rewrite (decide_False (P := 0 > 1)) by lia. case_decide as Hcount.
  - assert (length (completions FUEL (view (wr h pz row col 0) pz)) = 1%nat) as Hone by lia.
    destruct (IH (wr h pz row col 0) (removed + 1)) as (h' & r' & -> & ? & ? & ? & ? & ? & ?).
    { done. }
    { done. }
    { by apply Hsingle. }
    { done. }
    { intros pos Hin. destruct (Hrest pos) as [Hg Hz]; [by right|]. split; [done|].
      rewrite view_wr by apply Hwf.
      rewrite (at_bset_other _ (row, col)); [done|]. by intros <-. }
    { rewrite view_wr by apply Hwf.
      pose proof (visible_bset (view h pz) (row, col) (proj1 Hsub) Hpos Hnz).
      simpl in *. lia. }
    { lia. }
    exists h', r'. split_and!; try done.
    eapply frame_trans; [apply frame_wr|done].
  - unfold restore. rewrite wr_undo by done. apply IH; try done.
    intros pos Hin. apply Hrest. by right.
Qed.

(** ** [solvePuzzle] and [createPuzzle] as wholes *)

Lemma solvePuzzle_spec h g :
  wfb (view h g) →
  ∃ h' res, solvePuzzle h g = Some (h', res) ∧
    (∀ l, (l < length h)%nat → h' !! l = h !! l) ∧ view h' g = view h g ∧
    match completions FUEL (view h g) with
    | [] => res = None
    | s :: _ => ∃ q, res = Some q ∧ view h' q = s ∧ wf h' q
    end.
Proof.
  intros Hwf. unfold solvePuzzle.
  pose proof (copyGrid_spec h g Hwf) as Hcopy.
  destruct (copyGrid h g) as [h0 g0].
  destruct Hcopy as (Eh0 & Hwf0 & Hv0 & Hvg & Hfresh).
  pose proof (solve_spec FUEL g0 h0 Hwf0 (FUEL_enough _)) as Hsolve.
  rewrite Hv0 in Hsolve. unfold finds in Hsolve.
  assert (∀ h', frame g0 h0 h' →
            (∀ l, (l < length h)%nat → h' !! l = h !! l) ∧ view h' g = view h g)
    as Hold.
  { intros h' [_ Hf].
    assert (∀ l, (l < length h)%nat → h' !! l = h !! l) as Hlt.
    { intros l Hl. rewrite Hf.
      - rewrite Eh0. by apply lookup_app_l.
      - intros Hin. specialize (Hfresh l Hin). lia. }
    split; [done|]. apply view_ext. intros l Hl. apply Hlt. by apply (view_locs h g). }
  destruct (completions FUEL (view h g)) as [|s rest].
  - rewrite Hsolve. cbv beta iota. exists h0, None.
    destruct (Hold h0 (frame_refl _ _)). by split_and!.
  - destruct Hsolve as (h' & -> & Hv & Hwf' & Hf). cbv beta iota.
    exists h', (Some g0). destruct (Hold h' Hf). split_and!; eauto.
Qed.

Section Carver.

Variable random : nat → Q.
Hypothesis random_range : ∀ k, (0 <= random k)%Q ∧ (random k < 1)%Q.

Lemma createPuzzle_run_spec h solution d k :
  Solution (view h solution) →
  ∃ r, createPuzzle_run random h solution d k = Some r ∧
    wf (c_heap r) (c_puzzle r) ∧
    Sub (view h solution) (view (c_heap r) (c_puzzle r)) ∧
    (∀ s', Completion (view (c_heap r) (c_puzzle r)) s' → s' = view h solution) ∧
    Z.of_nat (visible (view (c_heap r) (c_puzzle r))) = 81 - c_removed r ∧
    c_removed r ≤ c_cellsToRemove r ∧
    c_cellsToRemove r = 81 - c_cellsToShow r ∧
    vmin (visibleCells (DIFFICULTY_CONFIGS d)) ≤ c_cellsToShow r
      ≤ vmax (visibleCells (DIFFICULTY_CONFIGS d)) ∧
    (∀ l, (l < length h)%nat → c_heap r !! l = h !! l) ∧
    view (c_heap r) solution = view h solution.
Proof.
  intros Hs. pose proof (Solution_wfb _ Hs) as Hwfb. unfold createPuzzle_run.
  pose proof (copyGrid_spec h solution Hwfb) as Hcopy.
  destruct (copyGrid h solution) as [h0 pz].
  destruct Hcopy as (Eh0 & Hwf0 & Hv0 & Hvg & Hfresh).
  set (cfg := visibleCells (DIFFICULTY_CONFIGS d)).
  assert (vmin cfg ≤ vmax cfg ∧ vmax cfg ≤ 81) as [Hcfg Hcfg'] by (by destruct d).
  pose proof (randomInRange_range random random_range k _ _ Hcfg) as Hshow.
  destruct (randomInRange random k (vmin cfg) (vmax cfg)) as [cellsToShow k1].
  cbn [fst] in Hshow.
  pose proof (shuffleArray_perm random random_range k1 positions) as Hperm.
  destruct (shuffleArray random k1 positions) as [shuffled k2]. cbn [fst] in Hperm.
  change (Z.of_nat (GRID_SIZE * GRID_SIZE)) with 81.
  destruct (carve_spec (view h solution) pz (81 - cellsToShow) shuffled h0 0)
    as (h' & removed & -> & Hwf' & Hf & Hsub & Hu & Hvis & Hrem).
  { done. }
  { done. }
  { rewrite Hv0. by apply Sub_refl. }
  { rewrite Hv0. intros s' Hc. apply Completion_full in Hc; [done..|].
    intros p Hp. destruct (proj1 (proj2 Hs) p Hp) as (v & -> & Hv). intros [=]. lia. }
  { rewrite Hperm. apply NoDup_positions. }
  { intros pos Hpos. rewrite Hperm in Hpos. apply elem_of_positions in Hpos.
    split; [done|]. rewrite Hv0.
    destruct (proj1 (proj2 Hs) pos Hpos) as (v & -> & Hv). intros [=]. lia. }
  { rewrite Hv0, (visible_Solution _ Hs). lia. }
  { lia. }
  cbv beta iota. eexists. split; [done|]. cbn [c_heap c_puzzle c_removed c_cellsToRemove c_cellsToShow].
  assert (∀ l, (l < length h)%nat → h' !! l = h !! l) as Hlt.
  { intros l Hl. rewrite (proj2 Hf).
    - rewrite Eh0. by apply lookup_app_l.
    - intros Hin. specialize (Hfresh l Hin). lia. }
  split_and!; try done; try lia.
  apply view_ext. intros l Hl. apply Hlt. by apply (view_locs h solution).
Qed.

End Carver.

(** ** A grid with a row conflict has no filling *)

Lemma in_grid_intro r c : (r < 9)%nat → (c < 9)%nat → in_grid (r, c).
Proof. by split. Qed.

Lemma elem_of_values s ps v : v ∈ values s ps → ∃ p, p ∈ ps ∧ at_ s p = Some v.
Proof. unfold values. rewrite list_elem_of_omap. naive_solver. Qed.

(** Blocks 3 and 6 lie below the two fives, whose columns are closed to a
    further 5; so each of the two blocks needs its 5 in column 2. *)
Lemma conflict_five_in_column_2 s i :
  Filling conflict_board s → i = 3%nat ∨ i = 6%nat →
  ∃ r, (i ≤ r < i + 3)%nat ∧ at_ s (r, 2%nat) = Some 5.
Proof.
  intros (Hs & Hk & Hfill) Hi.
  assert (at_ s (0, 0)%nat = Some 5) as E00
    by (rewrite Hk; [done|apply in_grid_intro; lia|done]).
  assert (at_ s (0, 1)%nat = Some 5) as E01
    by (rewrite Hk; [done|apply in_grid_intro; lia|done]).
  assert (∀ p, p ∈ block_cells i → at_ conflict_board p = Some 0) as Hz.
  { assert (forallb (λ p, is_num (at_ conflict_board p) 0) (block_cells i) = true) as H
      by (by destruct Hi as [-> | ->]).
    rewrite forallb_elem_of in H. intros p Hp. by apply is_num_true, H. }
  destruct (block_cells_ok i) as (Hnd & Hlen & Hg & Hu); [lia|].
  assert (values s (block_cells i) ≡ₚ digits) as Hperm.
  { apply values_perm; [done..| |].
    - intros p Hp. apply Hfill; auto.
    - intros p q Hp Hq Hne. apply not_eq_sym. apply Hfill; auto. }
  assert (5 ∈ values s (block_cells i)) as Hin
    by (rewrite Hperm; by apply elem_of_digits).
  apply elem_of_values in Hin as ([r c] & Hp & E).
  assert ((i ≤ r < i + 3)%nat ∧ (c < 3)%nat) as [Hr Hc].
  { clear -Hp Hi. destruct Hi as [-> | ->];
      repeat (apply elem_of_cons in Hp as [[= -> ->]|Hp]; [lia|]); inversion Hp. }
  exists r. split; [done|].
  destruct (Hfill (r, c) (Hg _ Hp) (Hz _ Hp)) as [_ Hd].
  assert (c = 0 ∨ c = 1 ∨ c = 2)%nat as [-> | [-> | ->]] by lia; [| |done].
  - exfalso. apply (Hd (0, 0)%nat); [apply in_grid_intro; lia| |by right; left|congruence].
    intros [= ?]. lia.
  - exfalso. apply (Hd (0, 1)%nat); [apply in_grid_intro; lia| |by right; left|congruence].
    intros [= ?]. lia.
Qed.

Lemma conflict_no_filling s : ¬ Filling conflict_board s.
Proof.
  intros HF.
  destruct (conflict_five_in_column_2 s 3 HF) as (r & Hr & E); [by left|].
  destruct (conflict_five_in_column_2 s 6 HF) as (r' & Hr' & E'); [by right|].
  destruct HF as (_ & _ & Hfill).
  destruct (Hfill (r, 2)%nat) as [_ Hd].
  - apply in_grid_intro; lia.
  - assert (forallb (λ p, is_num (at_ conflict_board p) 0)
              ((λ r, (r, 2%nat)) <$> seq 3 3) = true) as H by done.
    rewrite forallb_elem_of in H. apply is_num_true, H.
    apply list_elem_of_fmap. exists r. split; [done|]. apply elem_of_seq. lia.
  - apply (Hd (r', 2)%nat); [|intros [= ?]; lia|by right; left|congruence].
    apply in_grid_intro; lia.
Qed.

Lemma conflict_no_completions n : completions n conflict_board = [].
Proof.
  destruct (completions n conflict_board) as [|s l] eqn:E; [done|].
  exfalso. apply (conflict_no_filling s). apply (completions_sound n).
  - by apply wfbb_true.
  - rewrite E. by left.
Qed.

Lemma mock_random_range n : (0 <= mock_random n)%Q ∧ (mock_random n < 1)%Q.
Proof.
  unfold mock_random, Qle, Qlt. simpl.
  pose proof (Nat.mod_upper_bound (S n) 100 ltac:(lia)). lia.
Qed.

Lemma wfhb_true h g : wfhb h g = true → wf h g.
Proof.
  unfold wfhb, shapeb, wf.
  rewrite !andb_true_iff, !bool_decide_eq_true, forallb_elem_of.
  intros (Hnd & Hlen & Hrows). split_and!; [done..|].
  intros l Hl. specialize (Hrows l Hl). destruct (h !! l) as [r|]; [|done].
  apply bool_decide_eq_true in Hrows. eauto.
Qed.

(** ** The cases of the test suite *)

Example getBlockIndex_cases :
  getBlockIndex 0 0 = 0%nat ∧ getBlockIndex 4 4 = 4%nat ∧
  getBlockIndex 8 8 = 8%nat ∧ getBlockIndex 2 5 = 1%nat.
Proof. by split_and!. Qed.

Example isValidPlacement_five_cases :
  isValidPlacement five_board 0 1 5 = false ∧
  isValidPlacement five_board 1 0 5 = false ∧
  isValidPlacement five_board 1 1 5 = false ∧
  isValidPlacement five_board 3 3 5 = true ∧
  isValidPlacement five_board 0 1 1 = true.
Proof. by split_and!. Qed.

Example isValidPlacement_empty_case : isValidPlacement empty_board 4 7 3 = true.
Proof. reflexivity. Qed.

(** ** Main results *)

(** C1: for a complete, constraint-satisfying [solution] and any difficulty,
    the puzzle returned by [createPuzzle] has [solution] as a completion and
    no other, each of its non-zero cells equals the cell of [solution], and
    [countSolutions] on it gives 1. *)
Theorem createPuzzle_unique_solution random h solution d k :
  (∀ n, (0 <= random n)%Q ∧ (random n < 1)%Q) →
  Solution (view h solution) →
  ∃ h' puzzle, createPuzzle random h solution d k = Some (h', puzzle) ∧
    Completion (view h' puzzle) (view h solution) ∧
    (∀ s', Completion (view h' puzzle) s' → s' = view h solution) ∧
    (∀ pos v, in_grid pos → at_ (view h' puzzle) pos = Some v → v ≠ 0 →
              at_ (view h solution) pos = Some v) ∧
    countSolutions FUEL puzzle h' 0 = Some (h', 1).
Proof.
  intros Hrange Hs.
  destruct (createPuzzle_run_spec random Hrange h solution d k Hs)
    as (r & Hrun & Hwf & Hsub & Hu & _).
  exists (c_heap r), (c_puzzle r). unfold createPuzzle. rewrite Hrun.
  pose proof (Sub_Completion _ _ Hs Hsub) as Hc.
  split_and!; [done..| |].
  - intros pos v Hpos E Hv. rewrite (proj2 Hc pos Hpos); [done|].
    rewrite E. congruence.
  - rewrite countSolutions_spec; [|done|apply FUEL_enough].
    apply (single_completion FUEL _ _ Hs Hsub (FUEL_enough _)) in Hu.
    by rewrite Hu.
Qed.

Lemma createPuzzle_unique_solution_witness :
  (∀ n, (0 <= mock_random n)%Q ∧ (mock_random n < 1)%Q) ∧
  Solution (view known_solution (seq 0 9)) ∧
  ∃ h' puzzle,
    createPuzzle mock_random known_solution (seq 0 9) beginner 0 = Some (h', puzzle) ∧
    Completion (view h' puzzle) (view known_solution (seq 0 9)) ∧
    (∀ s', Completion (view h' puzzle) s' → s' = view known_solution (seq 0 9)) ∧
    (∀ pos v, in_grid pos → at_ (view h' puzzle) pos = Some v → v ≠ 0 →
              at_ (view known_solution (seq 0 9)) pos = Some v) ∧
    countSolutions FUEL puzzle h' 0 = Some (h', 1).
Proof.
  assert (Solution (view known_solution (seq 0 9))) as H
    by (apply Solutionb_true; vm_compute; reflexivity).
  split; [exact mock_random_range|]. split; [exact H|].
  exact (createPuzzle_unique_solution mock_random known_solution (seq 0 9)
           beginner 0 mock_random_range H).
Defined.

(** C2: on an internally consistent grid, [countSolutions] counts the
    completions one by one in a counter and returns at once, leaving the
    counter as it is, whenever the counter is above 1 (so also whenever it
    exceeds 2).  With [sols] the completions listed without repetition, the
    call with counter [c] returns [c] if [c > 1] and [min 2 (c + |sols|)]
    otherwise.  Started at 0, the result is 0 iff there is no completion, 1
    iff there is exactly one, and greater than 1 iff there are two different
    completions. *)
Theorem countSolutions_counts g h :
  wf h g → Consistent (view h g) →
  ∃ sols : list board,
    NoDup sols ∧ (∀ s, s ∈ sols ↔ Completion (view h g) s) ∧
    (∀ c, countSolutions FUEL g h c =
          Some (h, if decide (c > 1) then c
                   else Z.min 2 (c + Z.of_nat (length sols)))) ∧
    ∃ n, countSolutions FUEL g h 0 = Some (h, n) ∧
      (n = 0 ↔ ¬ ∃ s, Completion (view h g) s) ∧
      (n = 1 ↔ ∃ s, Completion (view h g) s ∧
                    ∀ s', Completion (view h g) s' → s' = s) ∧
      (n > 1 ↔ ∃ s1 s2, s1 ≠ s2 ∧ Completion (view h g) s1 ∧
                        Completion (view h g) s2).
Proof.
  intros Hwf Hc.
  pose proof (completions_NoDup FUEL _ (proj1 Hc)) as Hnd.
  pose proof (λ s, completions_spec FUEL _ s Hc (FUEL_enough _)) as Hspec.
  pose proof (λ c, countSolutions_spec FUEL g h c Hwf (FUEL_enough _)) as Hcount.
  exists (completions FUEL (view h g)). split_and!; [done..|].
  eexists. split; [apply Hcount|]. unfold cap. rewrite decide_False by lia.
  remember (Z.min 2 (0 + Z.of_nat (length (completions FUEL (view h g))))) as n eqn:En.
  clear Hcount.
  destruct (completions FUEL (view h g)) as [|s1 [|s2 l]].
  - assert (n = 0) as -> by (rewrite En; simpl length; lia). split_and!.
    + split; [|done]. intros _ [s Hs%Hspec]. inversion Hs.
    + split; [done|]. intros (s & Hs%Hspec & _). inversion Hs.
    + split; [lia|]. intros (s & _ & _ & Hs%Hspec & _). inversion Hs.
  - assert (n = 1) as -> by (rewrite En; simpl length; lia).
    assert (Completion (view h g) s1) as H1 by (apply Hspec; left).
    split_and!.
    + split; [done|]. intros Hn. destruct Hn. by exists s1.
    + split; [intros _|done]. exists s1. split; [done|].
      intros s' Hs'%Hspec. by apply list_elem_of_singleton in Hs'.
    + split; [lia|]. intros (x & y & Hne & Hx%Hspec & Hy%Hspec).
      apply list_elem_of_singleton in Hx, Hy. congruence.
  - assert (n = 2) as -> by (rewrite En; simpl length; lia).
    assert (Completion (view h g) s1) as H1 by (apply Hspec; left).
    assert (Completion (view h g) s2) as H2 by (apply Hspec; right; left).
    assert (s1 ≠ s2) as Hne.
    { intros ->. apply NoDup_cons in Hnd as [Hnotin _]. apply Hnotin. left. }
    split_and!.
    + split; [done|]. intros Hn. destruct Hn. by exists s1.
    + split; [done|]. intros (s & Hs & Hu). destruct Hne.
      by rewrite (Hu s1), (Hu s2).
    + split; [intros _|lia]. by exists s1, s2.
Qed.

Lemma countSolutions_counts_witness :
  wf empty_board (seq 0 9) ∧ Consistent (view empty_board (seq 0 9)) ∧
  ∃ sols : list board,
    NoDup sols ∧ (∀ s, s ∈ sols ↔ Completion (view empty_board (seq 0 9)) s) ∧
    (∀ c, countSolutions FUEL (seq 0 9) empty_board c =
          Some (empty_board, if decide (c > 1) then c
                             else Z.min 2 (c + Z.of_nat (length sols)))) ∧
    ∃ n, countSolutions FUEL (seq 0 9) empty_board 0 = Some (empty_board, n) ∧
      (n = 0 ↔ ¬ ∃ s, Completion (view empty_board (seq 0 9)) s) ∧
      (n = 1 ↔ ∃ s, Completion (view empty_board (seq 0 9)) s ∧
                    ∀ s', Completion (view empty_board (seq 0 9)) s' → s' = s) ∧
      (n > 1 ↔ ∃ s1 s2, s1 ≠ s2 ∧ Completion (view empty_board (seq 0 9)) s1 ∧
                        Completion (view empty_board (seq 0 9)) s2).
Proof.
  assert (wf empty_board (seq 0 9)) as H1 by (apply wfhb_true; vm_compute; reflexivity).
  assert (Consistent (view empty_board (seq 0 9))) as H2
    by (apply Consistentb_true; vm_compute; reflexivity).
  split; [exact H1|]. split; [exact H2|].
  exact (countSolutions_counts (seq 0 9) empty_board H1 H2).
Defined.

(** C3, as stated, fails: with 5 in the cell (0,0) and nowhere else,
    [isValidPlacement(grid, 0, 0, 5)] is false although 5 appears in no other
    cell; the scans of the row, the column and the block include the cell
    itself. *)
Lemma isValidPlacement_own_cell_counterexample :
  ¬ (∀ b row col v, wfb b → in_grid (row, col) → 1 ≤ v ≤ 9 →
       isValidPlacement b row col v = false ↔ appears_elsewhere b row col v).
Proof.
  intros H.
  destruct (H five_board 0%nat 0%nat 5) as [Hf _];
    [by apply wfbb_true|apply in_grid_intro; lia|lia|].
  destruct (Hf eq_refl) as (q & Hq & Hne & _ & E).
  assert (forallb (λ q, bool_decide (q = (0, 0)%nat) || is_num (at_ five_board q) 0)
            positions = true) as Hall by done.
  rewrite forallb_elem_of in Hall. specialize (Hall q (proj2 (elem_of_positions q) Hq)).
  apply orb_true_iff in Hall as [Hall|Hall].
  - by apply bool_decide_eq_true in Hall.
  - apply is_num_true in Hall. congruence.
Qed.

(** C3, amended: [isValidPlacement(grid, row, col, value)] is false exactly
    when [value] is held by some cell of the row, the column or the block of
    [(row, col)], the cell [(row, col)] itself included, and true otherwise.
    When the cell [(row, col)] does not hold [value] (the engine only asks
    about empty cells), that is: exactly when [value] appears elsewhere. *)
Theorem isValidPlacement_spec b row col v :
  in_grid (row, col) →
  (isValidPlacement b row col v = false ↔
     appears_elsewhere b row col v ∨ cell b row col = Some v) ∧
  (isValidPlacement b row col v = true ↔
     ¬ (appears_elsewhere b row col v ∨ cell b row col = Some v)) ∧
  (cell b row col ≠ Some v →
     (isValidPlacement b row col v = false ↔ appears_elsewhere b row col v)).
Proof.
  intros Hp.
  assert (isValidPlacement b row col v = true ↔
          ¬ (appears_elsewhere b row col v ∨ cell b row col = Some v)) as Htrue.
  { rewrite (isValidPlacement_true b (row, col) v Hp). split.
    - intros H [(q & Hq & _ & Hu & E)|E].
      + by apply (H q).
      + apply (H (row, col)); [done|by left|done].
    - intros H q Hq Hu E. apply H.
      destruct (decide (q = (row, col))) as [->|Hne]; [by right|].
      left. by exists q. }
  assert (isValidPlacement b row col v = false ↔
          appears_elsewhere b row col v ∨ cell b row col = Some v) as Hfalse.
  { destruct (isValidPlacement b row col v).
    - split; [done|]. intros H. by apply Htrue in H.
    - split; [intros _|done].
      destruct (decide (Exists (λ q, same_unit (row, col) q ∧ at_ b q = Some v)
                               positions)) as [Hex|Hex].
      + apply Exists_exists in Hex as (q & Hq%elem_of_positions & Hu & E).
        destruct (decide (q = (row, col))) as [->|Hne]; [by right|].
        left. by exists q.
      + assert (false = true); [|done]. apply Htrue.
        intros [(q & Hq & _ & Hu & E)|E]; apply Hex, Exists_exists.
        * exists q. by rewrite elem_of_positions.
        * exists (row, col). rewrite elem_of_positions. split_and!; [done|by left|done]. }
  split_and!; [done..|]. intros Hc. rewrite Hfalse. tauto.
Qed.

Lemma isValidPlacement_spec_witness :
  in_grid (0, 1)%nat ∧
  (isValidPlacement five_board 0 1 5 = false ↔
     appears_elsewhere five_board 0 1 5 ∨ cell five_board 0 1 = Some 5).
Proof.
  assert (in_grid (0, 1)%nat) as H by (apply in_grid_intro; lia).
  split; [exact H|]. exact (proj1 (isValidPlacement_spec five_board 0 1 5 H)).
Defined.

(** C4: whatever the random draws, [generateSolution] returns a grid without
    an empty cell in which every row, every column and every 3x3 block holds
    each of the digits 1..9 exactly once. *)
Theorem generateSolution_valid random k h :
  (∀ n, (0 <= random n)%Q ∧ (random n < 1)%Q) →
  ∃ k' h' grid, generateSolution random k h = Some (k', h', grid) ∧
    wfb (view h' grid) ∧
    (∀ p, in_grid p → ∃ v, at_ (view h' grid) p = Some v ∧ v ≠ 0) ∧
    ∀ i, (i < 9)%nat →
      values (view h' grid) (row_cells i) ≡ₚ digits ∧
      values (view h' grid) (col_cells i) ≡ₚ digits ∧
      values (view h' grid) (block_cells i) ≡ₚ digits.
Proof.
  intros Hrange.
  destruct (generateSolution_Solution random Hrange k h)
    as (k' & h' & grid & Hgen & Hs & _).
  exists k', h', grid. split_and!; [done|apply Hs| |].
  - intros p Hp. destruct (proj1 (proj2 Hs) p Hp) as (v & Ev & Hv).
    exists v. split; [done|lia].
  - intros i Hi. split_and!; apply Solution_unit; try done.
    + by apply row_cells_ok.
    + by apply col_cells_ok.
    + by apply block_cells_ok.
Qed.

Lemma generateSolution_valid_witness :
  (∀ n, (0 <= mock_random n)%Q ∧ (mock_random n < 1)%Q) ∧
  ∃ k' h' grid, generateSolution mock_random 0 [] = Some (k', h', grid) ∧
    wfb (view h' grid) ∧
    (∀ p, in_grid p → ∃ v, at_ (view h' grid) p = Some v ∧ v ≠ 0) ∧
    ∀ i, (i < 9)%nat →
      values (view h' grid) (row_cells i) ≡ₚ digits ∧
      values (view h' grid) (col_cells i) ≡ₚ digits ∧
      values (view h' grid) (block_cells i) ≡ₚ digits.
Proof.
  split; [exact mock_random_range|].
  exact (generateSolution_valid mock_random 0 [] mock_random_range).
Defined.

(** C5: solving the puzzle carved out of a solution gives that solution
    back: [solvePuzzle(createPuzzle(s, d))] is not [null] and is a grid with
    the contents of [s]. *)
Theorem solvePuzzle_createPuzzle random h solution d k :
  (∀ n, (0 <= random n)%Q ∧ (random n < 1)%Q) →
  Solution (view h solution) →
  ∃ h1 puzzle h2 solved,
    createPuzzle random h solution d k = Some (h1, puzzle) ∧
    solvePuzzle h1 puzzle = Some (h2, Some solved) ∧
    view h2 solved = view h solution ∧
    view h2 solved = view h2 solution.
Proof.
  intros Hrange Hs.
  destruct (createPuzzle_run_spec random Hrange h solution d k Hs)
    as (r & Hrun & Hwf & Hsub & Hu & _ & _ & _ & _ & Hold & Hview).
  exists (c_heap r), (c_puzzle r). unfold createPuzzle. rewrite Hrun.
  destruct (solvePuzzle_spec (c_heap r) (c_puzzle r) (proj1 Hsub))
    as (h2 & res & -> & Hold2 & _ & Hres).
  pose proof (Sub_Completion _ _ Hs Hsub) as Hc.
  pose proof (completions_complete FUEL _ _ (proj1 Hsub) (FUEL_enough _) Hc) as Hin.
  destruct (completions FUEL (view (c_heap r) (c_puzzle r))) as [|s l] eqn:E;
    [inversion Hin|].
  destruct Hres as (q & -> & Hq & _).
  assert (s = view h solution) as ->.
  { apply Hu. apply (completions_spec FUEL); [by apply (Sub_Consistent _ _ Hs)|
      apply FUEL_enough|rewrite E; left]. }
  exists h2, q. split_and!; [done..|].
  rewrite Hq. symmetry. apply view_ext. intros l' Hl'.
  pose proof (view_locs h solution l' (Solution_wfb _ Hs) Hl') as Hlt.
  rewrite Hold2, Hold; [done..|].
  apply lookup_lt_is_Some. rewrite Hold by done. by apply lookup_lt_is_Some.
Qed.

Lemma solvePuzzle_createPuzzle_witness :
  (∀ n, (0 <= mock_random n)%Q ∧ (mock_random n < 1)%Q) ∧
  Solution (view known_solution (seq 0 9)) ∧
  ∃ h1 puzzle h2 solved,
    createPuzzle mock_random known_solution (seq 0 9) expert 0 = Some (h1, puzzle) ∧
    solvePuzzle h1 puzzle = Some (h2, Some solved) ∧
    view h2 solved = view known_solution (seq 0 9) ∧
    view h2 solved = view h2 (seq 0 9).
Proof.
  assert (Solution (view known_solution (seq 0 9))) as H
    by (apply Solutionb_true; vm_compute; reflexivity).
  split; [exact mock_random_range|]. split; [exact H|].
  exact (solvePuzzle_createPuzzle mock_random known_solution (seq 0 9)
           expert 0 mock_random_range H).
Defined.

(** C6: the puzzle carved out of a solution shows at least the configured
    minimum of cells; and when the loop ends with the removal target reached
    (the shuffled coordinates were not used up first), it shows exactly the
    number drawn, which is at most the configured maximum.  The ranges are
    beginner [36,40], intermediate [32,36], hard [28,32], expert [24,28]. *)
Theorem createPuzzle_visible_count random h solution d k :
  (∀ n, (0 <= random n)%Q ∧ (random n < 1)%Q) →
  Solution (view h solution) →
  ∃ r, createPuzzle_run random h solution d k = Some r ∧
    createPuzzle random h solution d k = Some (c_heap r, c_puzzle r) ∧
    (vmin (visibleCells (DIFFICULTY_CONFIGS d)),
     vmax (visibleCells (DIFFICULTY_CONFIGS d))) = visible_range d ∧
    (visible_range d).1 ≤ Z.of_nat (visible (view (c_heap r) (c_puzzle r))) ∧
    (c_removed r >= c_cellsToRemove r →
       Z.of_nat (visible (view (c_heap r) (c_puzzle r))) = c_cellsToShow r ∧
       Z.of_nat (visible (view (c_heap r) (c_puzzle r))) ≤ (visible_range d).2).
Proof.
  intros Hrange Hs.
  destruct (createPuzzle_run_spec random Hrange h solution d k Hs)
    as (r & Hrun & _ & _ & _ & Hvis & Hrem & Htarget & Hshow & _).
  exists r. unfold createPuzzle. rewrite Hrun.
  assert ((vmin (visibleCells (DIFFICULTY_CONFIGS d)),
           vmax (visibleCells (DIFFICULTY_CONFIGS d))) = visible_range d) as Hcfg
    by (by destruct d).
  split_and!; [done..| |].
  - rewrite <- Hcfg. cbn [fst]. lia.
  - intros Hreached. rewrite <- Hcfg. cbn [snd]. lia.
Qed.

Lemma createPuzzle_visible_count_witness :
  (∀ n, (0 <= mock_random n)%Q ∧ (mock_random n < 1)%Q) ∧
  Solution (view known_solution (seq 0 9)) ∧
  ∃ r, createPuzzle_run mock_random known_solution (seq 0 9) hard 0 = Some r ∧
    createPuzzle mock_random known_solution (seq 0 9) hard 0
      = Some (c_heap r, c_puzzle r) ∧
    (vmin (visibleCells (DIFFICULTY_CONFIGS hard)),
     vmax (visibleCells (DIFFICULTY_CONFIGS hard))) = visible_range hard ∧
    (visible_range hard).1 ≤ Z.of_nat (visible (view (c_heap r) (c_puzzle r))) ∧
    (c_removed r >= c_cellsToRemove r →
       Z.of_nat (visible (view (c_heap r) (c_puzzle r))) = c_cellsToShow r ∧
       Z.of_nat (visible (view (c_heap r) (c_puzzle r))) ≤ (visible_range hard).2).
Proof.
  assert (Solution (view known_solution (seq 0 9))) as H
    by (apply Solutionb_true; vm_compute; reflexivity).
  split; [exact mock_random_range|]. split; [exact H|].
  exact (createPuzzle_visible_count mock_random known_solution (seq 0 9)
           hard 0 mock_random_range H).
Defined.

(** C7: on the grid whose only preset values are 5 at (0,0) and 5 at (0,1),
    [solvePuzzle] returns, and what it returns is [null]. *)
Theorem solvePuzzle_row_conflict h puzzle :
  view h puzzle = conflict_board →
  ∃ h', solvePuzzle h puzzle = Some (h', None).
Proof.
  intros Hv.
  destruct (solvePuzzle_spec h puzzle) as (h' & res & -> & _ & _ & Hres).
  { rewrite Hv. by apply wfbb_true. }
  rewrite Hv, conflict_no_completions in Hres. subst res. by exists h'.
Qed.

Lemma solvePuzzle_row_conflict_witness :
  view conflict_board (seq 0 9) = conflict_board ∧
  ∃ h', solvePuzzle conflict_board (seq 0 9) = Some (h', None).
Proof.
  assert (view conflict_board (seq 0 9) = conflict_board) as H by reflexivity.
  split; [exact H|]. exact (solvePuzzle_row_conflict conflict_board (seq 0 9) H).
Defined.

(** C8: [createPuzzle] and [solvePuzzle] work on a copy: for any 9x9
    argument grid and any difficulty they return, and after the call every
    cell of the argument (and every row array that existed before the call)
    holds what it held before. *)
Theorem createPuzzle_solvePuzzle_keep_argument random h grid d k :
  wfb (view h grid) →
  (∃ h' puzzle, createPuzzle random h grid d k = Some (h', puzzle) ∧
     (∀ p, in_grid p → at_ (view h' grid) p = at_ (view h grid) p) ∧
     view h' grid = view h grid ∧
     ∀ l, (l < length h)%nat → h' !! l = h !! l) ∧
  (∃ h' res, solvePuzzle h grid = Some (h', res) ∧
     (∀ p, in_grid p → at_ (view h' grid) p = at_ (view h grid) p) ∧
     view h' grid = view h grid ∧
     ∀ l, (l < length h)%nat → h' !! l = h !! l).
Proof.
  intros Hwfb. split.
  - unfold createPuzzle, createPuzzle_run.
    pose proof (copyGrid_spec h grid Hwfb) as Hcopy.
    destruct (copyGrid h grid) as [h0 pz].
    destruct Hcopy as (Eh0 & Hwf0 & Hv0 & Hvg & Hfresh).
    destruct (randomInRange random k _ _) as [cellsToShow k1].
    destruct (shuffleArray random k1 positions) as [shuffled k2].
    destruct (carve_total pz (Z.of_nat (GRID_SIZE * GRID_SIZE) - cellsToShow)
                shuffled h0 0 Hwf0) as (h' & removed & -> & _ & Hf).
    cbv beta iota. cbn [c_heap c_puzzle mbind option_bind].
    exists h', pz.
    assert (∀ l, (l < length h)%nat → h' !! l = h !! l) as Hlt.
    { intros l Hl. rewrite (proj2 Hf).
      - rewrite Eh0. by apply lookup_app_l.
      - intros Hin. specialize (Hfresh l Hin). lia. }
    assert (view h' grid = view h grid) as Hview.
    { apply view_ext. intros l Hl. apply Hlt. by apply (view_locs h grid). }
    split_and!; [done| |done..]. intros p _. by rewrite Hview.
  - destruct (solvePuzzle_spec h grid Hwfb) as (h' & res & -> & Hlt & Hview & _).
    exists h', res. split_and!; [done| |done..]. intros p _. by rewrite Hview.
Qed.

Lemma createPuzzle_solvePuzzle_keep_argument_witness :
  wfb (view known_solution (seq 0 9)) ∧
  (∃ h' puzzle,
     createPuzzle mock_random known_solution (seq 0 9) beginner 0 = Some (h', puzzle) ∧
     (∀ p, in_grid p →
        at_ (view h' (seq 0 9)) p = at_ (view known_solution (seq 0 9)) p) ∧
     view h' (seq 0 9) = view known_solution (seq 0 9) ∧
     ∀ l, (l < length known_solution)%nat → h' !! l = known_solution !! l) ∧
  (∃ h' res, solvePuzzle known_solution (seq 0 9) = Some (h', res) ∧
     (∀ p, in_grid p →
        at_ (view h' (seq 0 9)) p = at_ (view known_solution (seq 0 9)) p) ∧
     view h' (seq 0 9) = view known_solution (seq 0 9) ∧
     ∀ l, (l < length known_solution)%nat → h' !! l = known_solution !! l).
Proof.
  assert (wfb (view known_solution (seq 0 9))) as H
    by (apply wfbb_true; vm_compute; reflexivity).
  split; [exact H|].
  exact (createPuzzle_solvePuzzle_keep_argument mock_random known_solution
           (seq 0 9) beginner 0 H).
Defined.

(** C9: [countSolutions] undoes every write before it returns: on a 9x9
    grid it returns with the heap it was given, so every cell of the grid
    (and of every other grid) holds what it held at the call. *)
Theorem countSolutions_restores fuel g h count :
  wf h g → (empties (view h g) < fuel)%nat →
  ∃ n, countSolutions fuel g h count = Some (h, n).
Proof.
  intros Hwf Hn. eexists. by apply countSolutions_spec.
Qed.

Lemma countSolutions_restores_witness :
  wf empty_board (seq 0 9) ∧ (empties (view empty_board (seq 0 9)) < FUEL)%nat ∧
  ∃ n, countSolutions FUEL (seq 0 9) empty_board 0 = Some (empty_board, n).
Proof.
  assert (wf empty_board (seq 0 9)) as H1 by (apply wfhb_true; vm_compute; reflexivity).
  assert (empties (view empty_board (seq 0 9)) < FUEL)%nat as H2
    by (vm_compute; lia).
  split; [exact H1|]. split; [exact H2|].
  exact (countSolutions_restores FUEL (seq 0 9) empty_board 0 H1 H2).
Defined.

Section RecordsFacts.

Import Records.

Lemma insert_by_perm {A} (cmp : A → A → Z) x l : insert_by cmp x l ≡ₚ x :: l.
Proof.
  induction l as [|y l IH]; [done|]. simpl. case_decide; [done|].
  by rewrite IH, Permutation_swap.
Qed.

Lemma sort_by_perm {A} (cmp : A → A → Z) l : sort_by cmp l ≡ₚ l.
Proof.
  induction l as [|x l IH]; [done|]. unfold sort_by in *. simpl.
  by rewrite insert_by_perm, IH.
Qed.

Lemma insert_by_sorted x l :
  Sorted score_desc l → Sorted score_desc (insert_by compareScore x l).
Proof.
  induction 1 as [|y l Hs IH Hd]; simpl.
  { by repeat constructor. }
  unfold compareScore at 1. case_decide as Hc.
  - constructor; [by constructor|]. constructor. unfold score_desc. lia.
  - constructor; [done|]. destruct Hd as [|z l Hyz]; simpl.
    + constructor. unfold score_desc. lia.
    + unfold compareScore. case_decide; constructor; unfold score_desc in *; lia.
Qed.

Lemma sort_by_sorted l : Sorted score_desc (sort_by compareScore l).
Proof.
  induction l as [|x l IH]; [constructor|]. by apply insert_by_sorted.
Qed.

Lemma getRecords_length records d :
  (length (getRecordsByDifficulty records d) ≤ 3)%nat.
Proof. unfold getRecordsByDifficulty. rewrite length_take. unfold MAX_RECORDS_PER_DIFFICULTY. lia. Qed.

Lemma getRecords_difficulty records d :
  Forall (λ r, difficulty r = d) (getRecordsByDifficulty records d).
Proof.
  apply Forall_forall. intros r Hr. unfold getRecordsByDifficulty in Hr.
  apply elem_of_take in Hr as (i & Hr & _).
  apply list_elem_of_lookup_2 in Hr.
  rewrite sort_by_perm in Hr. by apply list_elem_of_filter in Hr as [? _].
Qed.

Lemma Sorted_adjacent {A} (R : relation A) l i a b :
  Sorted R l → l !! i = Some a → l !! S i = Some b → R a b.
Proof.
  intros Hs. revert i. induction Hs as [|x l Hs IH Hd]; intros i Ha Hb; [done|].
  destruct i as [|i]; simpl in *.
  - injection Ha as ->. destruct Hd as [|y l' Hxy]; [done|].
    simpl in Hb. by injection Hb as ->.
  - by apply (IH i).
Qed.

Lemma getRecords_sorted records d i a b :
  getRecordsByDifficulty records d !! i = Some a →
  getRecordsByDifficulty records d !! S i = Some b →
  score b ≤ score a.
Proof.
  unfold getRecordsByDifficulty. intros Ha Hb.
  apply lookup_take_Some in Ha as [Ha _], Hb as [Hb _].
  eapply (Sorted_adjacent score_desc); [|done..].
  apply sort_by_sorted.
Qed.

Lemma filter_difficulty (l : list GameRecord) d d' :
  Forall (λ r, difficulty r = d') l →
  filter (λ r, difficulty r = d) l = if decide (d = d') then l else [].
Proof.
  intros Hl. induction Hl as [|r l Hr Hl IH]; [by case_decide|].
  rewrite filter_cons, IH. repeat case_decide; congruence.
Qed.

Lemma addRecord_kept records record uuid now d :
  (kept (addRecord records record uuid now).1 d ≤ 3)%nat.
Proof.
  unfold addRecord, kept, difficulties. cbn [fst].
  set (rs := records ++ _).
  rewrite !bind_cons. change ([] ≫= getRecordsByDifficulty rs) with (@nil GameRecord).
  rewrite !filter_app, filter_nil, !length_app.
  rewrite (filter_difficulty _ d beginner), (filter_difficulty _ d intermediate),
    (filter_difficulty _ d hard), (filter_difficulty _ d expert)
    by apply getRecords_difficulty.
  pose proof (getRecords_length rs d).
  destruct d; repeat case_decide; try done; simpl; lia.
Qed.

(** C10: after any sequence of [addRecord] calls, on the store as it is
    created (empty) or, after at least one call, on a store loaded with any
    list, at most 3 records of each difficulty are kept; and
    [getRecordsByDifficulty] returns at most 3 records, all of the
    difficulty asked for, each with a score at least that of the next. *)
Theorem addRecord_top_three init c calls d :
  (kept (after [] calls) d ≤ 3)%nat ∧
  (kept (after init (c :: calls)) d ≤ 3)%nat ∧
  ∀ records,
    (length (getRecordsByDifficulty records d) ≤ 3)%nat ∧
    Forall (λ r, difficulty r = d) (getRecordsByDifficulty records d) ∧
    ∀ i a b, getRecordsByDifficulty records d !! i = Some a →
             getRecordsByDifficulty records d !! S i = Some b →
             score b ≤ score a.
Proof.
  assert (∀ calls init, (kept init d ≤ 3)%nat → (kept (after init calls) d ≤ 3)%nat)
    as Hafter.
  { clear. intros calls. induction calls as [|c calls IH]; intros init Hinit; [done|].
    apply IH, addRecord_kept. }
  split_and!.
  - apply Hafter. unfold kept. simpl. lia.
  - change (after init (c :: calls))
      with (after (addRecord init c.1.1 c.1.2 c.2).1 calls).
    apply Hafter, addRecord_kept.
  - intros records. split_and!;
      [apply getRecords_length|apply getRecords_difficulty|apply getRecords_sorted].
Qed.

End RecordsFacts.

(** * Further properties of the engine *)

(** ** [findEmptyCell] *)

Lemma find_split {A} (f : A → bool) l x :
  find f l = Some x →
  ∃ l1 l2, l = l1 ++ x :: l2 ∧ f x = true ∧ ∀ y, y ∈ l1 → f y = false.
Proof.
  induction l as [|a l IH]; [done|]. simpl. destruct (f a) eqn:Ha.
  - intros [= ->]. exists [], l. split_and!; [done..|]. intros y Hy. inversion Hy.
  - intros H. destruct (IH H) as (l1 & l2 & -> & Hx & Hl1).
    exists (a :: l1), l2. split_and!; [done..|].
    intros y [->|Hy]%elem_of_cons; auto.
Qed.

Lemma positions_sorted : StronglySorted before positions.
Proof. by apply (bool_decide_unpack _). Qed.

(** X1: [findEmptyCell] returns the first empty cell in row-major order: the
    cell it returns holds 0 and every cell before it does not; it returns
    [null] exactly when no cell of the grid holds 0. *)
Theorem findEmptyCell_first b :
  match findEmptyCell b with
  | Some p =>
      in_grid p ∧ at_ b p = Some 0 ∧
      ∀ q, in_grid q → before q p → at_ b q ≠ Some 0
  | None => ∀ q, in_grid q → at_ b q ≠ Some 0
  end.
Proof.
  destruct (findEmptyCell b) as [p|] eqn:E; [|by apply findEmptyCell_None].
  destruct (findEmptyCell_Some b p E) as [Hp Hz]. split_and!; [done..|].
  intros q Hq Hlt. unfold findEmptyCell in E.
  apply find_split in E as (l1 & l2 & El & _ & Hl1).
  pose proof positions_sorted as Hs. pose proof NoDup_positions as Hnd.
  rewrite El in Hs, Hnd.
  apply elem_of_positions in Hq. rewrite El in Hq.
  apply elem_of_app in Hq as [Hq|Hq].
  - by apply is_num_false, Hl1.
  - apply elem_of_cons in Hq as [->|Hq].
    + exfalso. unfold before in Hlt. lia.
    + exfalso. apply StronglySorted_app_1_r, StronglySorted_cons in Hs as [Hall _].
      rewrite Forall_forall in Hall. specialize (Hall q Hq).
      unfold before in *. lia.
Qed.

(** ** The random helpers *)

Lemma shuffle_from_next {A} `{Inhabited A} random i k (l : list A) :
  (shuffle_from random i k l).2 = (k + i)%nat.
Proof.
  revert k l. induction i as [|i IH]; intros k l; cbn [shuffle_from].
  - simpl. lia.
  - rewrite IH. lia.
Qed.

(** X2: with draws in [0,1), [shuffleArray] returns a permutation of its
    argument (same elements, same multiplicities, so the same length), and
    it makes one draw per element but the first. *)
Theorem shuffleArray_permutation {A} `{Inhabited A} random k (l : list A) :
  (∀ n, (0 <= random n)%Q ∧ (random n < 1)%Q) →
  (shuffleArray random k l).1 ≡ₚ l ∧
  length (shuffleArray random k l).1 = length l ∧
  (shuffleArray random k l).2 = (k + (length l - 1))%nat.
Proof.
  intros Hr. pose proof (shuffleArray_perm random Hr k l) as Hp.
  split_and!; [done|by rewrite Hp|]. apply shuffle_from_next.
Qed.

Lemma shuffleArray_permutation_witness :
  (∀ n, (0 <= mock_random n)%Q ∧ (mock_random n < 1)%Q) ∧
  (shuffleArray mock_random 0 digits).1 ≡ₚ digits ∧
  length (shuffleArray mock_random 0 digits).1 = length digits ∧
  (shuffleArray mock_random 0 digits).2 = (0 + (length digits - 1))%nat.
Proof.
  split; [exact mock_random_range|].
  exact (shuffleArray_permutation mock_random 0 digits mock_random_range).
Defined.

(** X3: with a draw in [0,1) and [min <= max], [randomInRange(min, max)] is
    an integer between [min] and [max], both included, and costs one draw. *)
Theorem randomInRange_bounds random k min max :
  (∀ n, (0 <= random n)%Q ∧ (random n < 1)%Q) → min ≤ max →
  min ≤ (randomInRange random k min max).1 ≤ max ∧
  (randomInRange random k min max).2 = S k.
Proof.
  intros Hr Hm. split; [by apply randomInRange_range|done].
Qed.

Lemma randomInRange_bounds_witness :
  (∀ n, (0 <= mock_random n)%Q ∧ (mock_random n < 1)%Q) ∧ 24 ≤ 28 ∧
  24 ≤ (randomInRange mock_random 3 24 28).1 ≤ 28 ∧
  (randomInRange mock_random 3 24 28).2 = 4%nat.
Proof.
  assert (24 ≤ 28) as H by lia.
  split; [exact mock_random_range|]. split; [exact H|].
  exact (randomInRange_bounds mock_random 3 24 28 mock_random_range H).
Defined.

(** ** [getBlockIndex] *)

(** X4: for a cell of the grid, [getBlockIndex] is a number below 9, the
    cell is one of the nine cells of the block with that index, and two
    cells get the same index exactly when they lie in the same 3x3 block. *)
Theorem getBlockIndex_block p q :
  in_grid p → in_grid q →
  (getBlockIndex p.1 p.2 < 9)%nat ∧
  p ∈ block_cells (getBlockIndex p.1 p.2) ∧
  (getBlockIndex p.1 p.2 = getBlockIndex q.1 q.2 ↔
   (p.1 / 3)%nat = (q.1 / 3)%nat ∧ (p.2 / 3)%nat = (q.2 / 3)%nat).
Proof.
  intros [Hp1 Hp2] [Hq1 Hq2]. unfold GRID_SIZE in *.
  destruct p as [r c], q as [r' c']. cbn [fst snd] in *.
  unfold getBlockIndex, BLOCK_SIZE. split_and!.
  - dlia.
  - unfold block_cells, BLOCK_SIZE. apply list_elem_of_bind. exists (r mod 3)%nat.
    split; [|apply elem_of_seq; dlia].
    apply list_elem_of_bind. exists (c mod 3)%nat.
    split; [|apply elem_of_seq; dlia].
    apply list_elem_of_singleton. f_equal; dlia.
  - dlia.
Qed.

Lemma getBlockIndex_block_witness :
  in_grid (4, 7)%nat ∧ in_grid (5, 8)%nat ∧
  (getBlockIndex 4 7 < 9)%nat ∧
  (4, 7)%nat ∈ block_cells (getBlockIndex 4 7) ∧
  (getBlockIndex 4 7 = getBlockIndex 5 8 ↔
   (4 / 3)%nat = (5 / 3)%nat ∧ (7 / 3)%nat = (8 / 3)%nat).
Proof.
  assert (in_grid (4, 7)%nat) as H1 by (apply in_grid_intro; lia).
  assert (in_grid (5, 8)%nat) as H2 by (apply in_grid_intro; lia).
  split; [exact H1|]. split; [exact H2|].
  exact (getBlockIndex_block (4, 7)%nat (5, 8)%nat H1 H2).
Defined.

(** ** Placements and consistency *)

(** X7: on a consistent grid, for an empty cell and a digit 1..9, the
    constraint checker accepts the digit exactly when the grid with the digit
    written into the cell is still consistent. *)
Theorem isValidPlacement_keeps_Consistent b p v :
  Consistent b → in_grid p → at_ b p = Some 0 → 1 ≤ v ≤ 9 →
  isValidPlacement b p.1 p.2 v = true ↔ Consistent (bset b p.1 p.2 v).
Proof.
  intros (Hwf & Hr & Hd) Hp Hz Hv.
  rewrite (isValidPlacement_true b p v Hp). split.
  - intros Hvalid. split_and!; [by apply wfb_bset| |].
    + intros q Hq. destruct (decide (p = q)) as [<-|Hne].
      * exists v. rewrite at_bset_same by done. split; [done|lia].
      * rewrite at_bset_other by done. auto.
    + intros q q' Hq Hq' Hne Hu Hnz.
      destruct (decide (p = q)) as [<-|Hpq].
      * rewrite at_bset_same, at_bset_other by done.
        intros E. by apply (Hvalid q').
      * rewrite (at_bset_other b p q) in * by done.
        destruct (decide (p = q')) as [<-|Hpq'].
        -- rewrite at_bset_same by done. apply Hvalid; auto using same_unit_sym.
        -- rewrite at_bset_other by done. by apply Hd.
  - intros (_ & _ & Hd') q Hq Hu E.
    destruct (decide (p = q)) as [<-|Hne].
    + rewrite Hz in E. injection E. lia.
    + apply (Hd' p q Hp Hq Hne Hu).
      * rewrite at_bset_same by done. intros [=]. lia.
      * by rewrite at_bset_same, at_bset_other.
Qed.

Lemma isValidPlacement_keeps_Consistent_witness :
  Consistent five_board ∧ in_grid (3, 3)%nat ∧ at_ five_board (3, 3)%nat = Some 0 ∧
  1 ≤ 5 ≤ 9 ∧
  (isValidPlacement five_board 3 3 5 = true ↔ Consistent (bset five_board 3 3 5)).
Proof.
  assert (Consistent five_board) as H1 by (apply Consistentb_true; vm_compute; reflexivity).
  assert (in_grid (3, 3)%nat) as H2 by (apply in_grid_intro; lia).
  assert (at_ five_board (3, 3)%nat = Some 0) as H3 by reflexivity.
  assert (1 ≤ 5 ≤ 9) as H4 by lia.
  split_and!; [exact H1|exact H2|exact H3|lia..|].
  exact (isValidPlacement_keeps_Consistent five_board (3, 3)%nat 5 H1 H2 H3 H4).
Defined.

(** ** The solver and the generator on any grid *)

(** X5: on an internally consistent 9x9 grid, [solvePuzzle] returns [null]
    exactly when the grid has no completion; otherwise it returns a new grid
    that is a completion of the argument (a full valid grid that keeps every
    given digit). *)
Theorem solvePuzzle_sound_complete h puzzle :
  Consistent (view h puzzle) →
  ∃ h' res, solvePuzzle h puzzle = Some (h', res) ∧
    (res = None ↔ ¬ ∃ s, Completion (view h puzzle) s) ∧
    (∀ solved, res = Some solved → Completion (view h puzzle) (view h' solved)).
Proof.
  intros Hc.
  destruct (solvePuzzle_spec h puzzle (proj1 Hc)) as (h' & res & -> & _ & _ & Hres).
  exists h', res. split; [done|].
  pose proof (λ s, completions_spec FUEL _ s Hc (FUEL_enough _)) as Hspec.
  destruct (completions FUEL (view h puzzle)) as [|s l].
  - subst res. split_and!; [|done].
    split; [|done]. intros _ [s Hs%Hspec]. inversion Hs.
  - destruct Hres as (q & -> & Hq & _).
    assert (Completion (view h puzzle) s) as Hs by (apply Hspec; left).
    split_and!.
    + split; [done|]. intros Hn. destruct Hn. by exists s.
    + intros solved [= <-]. by rewrite Hq.
Qed.

Lemma solvePuzzle_sound_complete_witness :
  Consistent (view five_board (seq 0 9)) ∧
  ∃ h' res, solvePuzzle five_board (seq 0 9) = Some (h', res) ∧
    (res = None ↔ ¬ ∃ s, Completion (view five_board (seq 0 9)) s) ∧
    (∀ solved, res = Some solved →
       Completion (view five_board (seq 0 9)) (view h' solved)).
Proof.
  assert (Consistent (view five_board (seq 0 9))) as H
    by (apply Consistentb_true; vm_compute; reflexivity).
  split; [exact H|]. exact (solvePuzzle_sound_complete five_board (seq 0 9) H).
Defined.

(** X6: [fillGrid] on an internally consistent grid, whatever the draws: it
    answers [true] exactly when the grid has a completion and then leaves one
    in the grid; when it answers [false] every cell is as it was before the
    call. *)
Theorem fillGrid_contract random g k h :
  (∀ n, (0 <= random n)%Q ∧ (random n < 1)%Q) →
  wf h g → Consistent (view h g) →
  ∃ k' h' filled, fillGrid random FUEL g k h = Some (k', h', filled) ∧
    (filled = true ↔ ∃ s, Completion (view h g) s) ∧
    (filled = true → Completion (view h g) (view h' g)) ∧
    (filled = false → h' = h).
Proof.
  intros Hr Hwf Hc.
  destruct (fillGrid_spec random Hr FUEL g k h Hwf (FUEL_enough _))
    as (k' & h' & filled & -> & Hres).
  exists k', h', filled. split; [done|].
  pose proof (λ s, completions_spec FUEL _ s Hc (FUEL_enough _)) as Hspec.
  destruct filled.
  - destruct Hres as (Hin%Hspec & _). split_and!; [|done..].
    split; [|done]. intros _. by eexists.
  - destruct Hres as [-> Hnil]. split_and!; [|done..].
    split; [done|]. intros [s Hs%Hspec]. rewrite Hnil in Hs. inversion Hs.
Qed.

Lemma fillGrid_contract_witness :
  (∀ n, (0 <= mock_random n)%Q ∧ (mock_random n < 1)%Q) ∧
  wf five_board (seq 0 9) ∧ Consistent (view five_board (seq 0 9)) ∧
  ∃ k' h' filled,
    fillGrid mock_random FUEL (seq 0 9) 0 five_board = Some (k', h', filled) ∧
    (filled = true ↔ ∃ s, Completion (view five_board (seq 0 9)) s) ∧
    (filled = true → Completion (view five_board (seq 0 9)) (view h' (seq 0 9))) ∧
    (filled = false → h' = five_board).
Proof.
  assert (wf five_board (seq 0 9)) as H1 by (apply wfhb_true; vm_compute; reflexivity).
  assert (Consistent (view five_board (seq 0 9))) as H2
    by (apply Consistentb_true; vm_compute; reflexivity).
  split; [exact mock_random_range|]. split; [exact H1|]. split; [exact H2|].
  exact (fillGrid_contract mock_random (seq 0 9) 0 five_board mock_random_range H1 H2).
Defined.

(** ** Fresh grids *)

Lemma generateSolution_grid random k h k' h' grid :
  generateSolution random k h = Some (k', h', grid) →
  grid = seq (length h) GRID_SIZE.
Proof.
  unfold generateSolution, newGrid.
  generalize (seq (length h) GRID_SIZE) as g.
  generalize (h ++ replicate GRID_SIZE (replicate GRID_SIZE 0)) as h0.
  intros h0 g. destruct (fillGrid random FUEL g k h0) as [[[? ?] ?]|]; [|done].
  by intros [= _ _ <-].
Qed.

(** X8: [generateSolution] builds its grid from nine new row arrays: every
    array that existed before the call is unchanged, the rows of the result
    are nine different arrays, and none of them existed before. *)
Theorem generateSolution_fresh random k h :
  (∀ n, (0 <= random n)%Q ∧ (random n < 1)%Q) →
  ∃ k' h' grid, generateSolution random k h = Some (k', h', grid) ∧
    NoDup grid ∧ length grid = 9%nat ∧
    (∀ l, l ∈ grid → (length h ≤ l < length h')%nat) ∧
    (∀ l, (l < length h)%nat → h' !! l = h !! l).
Proof.
  intros Hr.
  destruct (generateSolution_Solution random Hr k h)
    as (k' & h' & grid & Hgen & _ & (Hnd & Hlen & Hrows) & Hold).
  exists k', h', grid. split_and!; try done.
  intros l Hl. split.
  - rewrite (generateSolution_grid _ _ _ _ _ _ Hgen) in Hl.
    apply elem_of_seq in Hl. lia.
  - destruct (Hrows l Hl) as (r & Er & _). by apply lookup_lt_Some in Er.
Qed.

Lemma generateSolution_fresh_witness :
  (∀ n, (0 <= mock_random n)%Q ∧ (mock_random n < 1)%Q) ∧
  ∃ k' h' grid, generateSolution mock_random 0 known_solution = Some (k', h', grid) ∧
    NoDup grid ∧ length grid = 9%nat ∧
    (∀ l, l ∈ grid → (length known_solution ≤ l < length h')%nat) ∧
    (∀ l, (l < length known_solution)%nat → h' !! l = known_solution !! l).
Proof.
  split; [exact mock_random_range|].
  exact (generateSolution_fresh mock_random 0 known_solution mock_random_range).
Defined.

(** X9: the puzzle returned by [createPuzzle] shares no row array with the
    grid it was given: its rows are nine different new arrays, so a later
    write into the puzzle leaves the argument grid as it is. *)
Theorem createPuzzle_fresh random h grid d k :
  wfb (view h grid) →
  ∃ h' puzzle, createPuzzle random h grid d k = Some (h', puzzle) ∧
    NoDup puzzle ∧ length puzzle = 9%nat ∧
    (∀ l, l ∈ puzzle → (l ∉ grid) ∧ (length h ≤ l)%nat) ∧
    ∀ row col v, view (wr h' puzzle row col v) grid = view h' grid.
Proof.
  intros Hwfb. unfold createPuzzle, createPuzzle_run.
  pose proof (copyGrid_spec h grid Hwfb) as Hcopy.
  destruct (copyGrid h grid) as [h0 pz] eqn:Ecopy.
  destruct Hcopy as (Eh0 & Hwf0 & Hv0 & Hvg & Hfresh).
  destruct (randomInRange random k _ _) as [cellsToShow k1].
  destruct (shuffleArray random k1 positions) as [shuffled k2].
  destruct (carve_total pz (Z.of_nat (GRID_SIZE * GRID_SIZE) - cellsToShow)
              shuffled h0 0 Hwf0) as (h' & removed & -> & _ & Hf).
  cbv beta iota. cbn [c_heap c_puzzle mbind option_bind].
  exists h', pz.
  assert (∀ l, l ∈ pz → (l ∉ grid) ∧ (length h ≤ l)%nat) as Hnew.
  { intros l Hl. split; [|by apply Hfresh]. intros Hin.
    pose proof (view_locs h grid l Hwfb Hin). specialize (Hfresh l Hl). lia. }
  split_and!; [done|apply Hwf0|apply Hwf0|done|].
  intros row col v. apply view_ext. intros l Hl.
  apply (proj2 (frame_wr h' pz row col v)). intros Hin. by destruct (Hnew l Hin).
Qed.

Lemma createPuzzle_fresh_witness :
  wfb (view known_solution (seq 0 9)) ∧
  ∃ h' puzzle,
    createPuzzle mock_random known_solution (seq 0 9) expert 0 = Some (h', puzzle) ∧
    NoDup puzzle ∧ length puzzle = 9%nat ∧
    (∀ l, l ∈ puzzle → (l ∉ seq 0 9) ∧ (length known_solution ≤ l)%nat) ∧
    ∀ row col v, view (wr h' puzzle row col v) (seq 0 9) = view h' (seq 0 9).
Proof.
  assert (wfb (view known_solution (seq 0 9))) as H
    by (apply wfbb_true; vm_compute; reflexivity).
  split; [exact H|].
  exact (createPuzzle_fresh mock_random known_solution (seq 0 9) expert 0 H).
Defined.

(** * The validator *)

Section ValidatorFacts.

Import Validator.

Lemma wfc_cellAt b p : wfc b → in_grid p → ∃ x, cellAt b p.1 p.2 = Some x.
Proof.
  intros [Hl Hr] [H1 H2]. unfold cellAt.
  destruct (lookup_lt_is_Some_2 b p.1) as [r Er]; [lia|].
  rewrite Er. simpl. apply list_elem_of_lookup_2 in Er as Hin.
  rewrite Forall_forall in Hr. specialize (Hr _ Hin).
  apply lookup_lt_is_Some_2. lia.
Qed.

Lemma wfc_set_value b r c v : wfc b → wfc (set_value b r c v).
Proof.
  intros [Hl Hr]. split.
  - unfold set_value. by rewrite length_alter.
  - unfold set_value. apply Forall_alter; [done|]. intros x _ Hx.
    by rewrite length_alter.
Qed.

Lemma cellAt_set_same b p v x :
  cellAt b p.1 p.2 = Some x →
  cellAt (set_value b p.1 p.2 v) p.1 p.2 = Some (with_value v x).
Proof.
  unfold cellAt, set_value. rewrite list_lookup_alter_eq.
  destruct (b !! p.1) as [r|]; simpl; [|done].
  rewrite list_lookup_alter_eq. by intros ->.
Qed.

Lemma cellAt_set_other b p q v :
  p ≠ q → cellAt (set_value b p.1 p.2 v) q.1 q.2 = cellAt b q.1 q.2.
Proof.
  intros Hne. unfold cellAt, set_value.
  destruct (decide (p.1 = q.1)) as [E|E].
  - rewrite E, list_lookup_alter_eq. destruct (b !! q.1) as [r|]; simpl; [|done].
    apply list_lookup_alter_ne. intros E2. apply Hne.
    destruct p, q; simpl in *; congruence.
  - by rewrite list_lookup_alter_ne.
Qed.

Lemma val_set_same b p v : wfc b → in_grid p → val (set_value b p.1 p.2 v) p = v.
Proof.
  intros Hwf Hp. destruct (wfc_cellAt b p Hwf Hp) as [x Ex].
  unfold val, valueAt. by rewrite (cellAt_set_same b p v x Ex).
Qed.

Lemma val_set_other b p q v : p ≠ q → val (set_value b p.1 p.2 v) q = val b q.
Proof. intros Hne. unfold val, valueAt. by rewrite cellAt_set_other. Qed.

(** Taking a value out of a cell and putting it back gives the board back. *)
Lemma set_value_restore b p w v :
  val b p = Some v → set_value (set_value b p.1 p.2 w) p.1 p.2 (Some v) = b.
Proof.
  unfold val, valueAt, cellAt, set_value. intros Hv.
  rewrite list_alter_alter_eq. apply list_eq. intros i.
  destruct (decide (i = p.1)) as [->|Hne]; [|by rewrite list_lookup_alter_ne].
  rewrite list_lookup_alter_eq. destruct (b !! p.1) as [r|]; simpl in *; [|done].
  f_equal. rewrite list_alter_alter_eq. apply list_eq. intros j.
  destruct (decide (j = p.2)) as [->|Hne]; [|by rewrite list_lookup_alter_ne].
  rewrite list_lookup_alter_eq. destruct (r !! p.2) as [x|]; simpl in *; [|done].
  f_equal. destruct x. simpl in *. by subst.
Qed.

(** *** [validateMove] *)

Lemma validateMove_conflicts b p v q :
  in_grid p →
  q ∈ conflicts (validateMove b p.1 p.2 v) ↔ conflict b p v q.
Proof.
  intros [Hp1 Hp2]. destruct p as [r c], q as [r' c'].
  unfold conflict, in_grid, same_unit, val, validateMove, GRID_SIZE, BLOCK_SIZE in *.
  cbn [fst snd conflicts] in *.
  rewrite !elem_of_app, !list_elem_of_fmap, list_elem_of_filter.
  setoid_rewrite list_elem_of_filter. setoid_rewrite elem_of_seq.
  rewrite list_elem_of_bind. setoid_rewrite list_elem_of_bind.
  setoid_rewrite list_elem_of_singleton. setoid_rewrite elem_of_seq.
  cbn [fst snd]. split.
  - intros [(x & [= -> ->] & (Hne & Hv) & Hx)|[(x & [= -> ->] & (Hne & Hv) & Hx)|
            [(Hne1 & Hne2 & Hv) (x & (y & [= -> ->] & Hy) & Hx)]]].
    + split_and!; [lia|lia|congruence|by left|done].
    + split_and!; [lia|lia|congruence|by right; left|done].
    + split_and!; [dlia|dlia|congruence|right; right; dlia|done].
  - intros ((Hr' & Hc') & Hne & Hu & Hv).
    destruct (decide (r' = r)) as [->|Hr].
    { left. exists c'. split_and!; first [done | lia | congruence]. }
    destruct (decide (c' = c)) as [->|Hc].
    { right; left. exists r'. split_and!; first [done | lia | congruence]. }
    right; right. split; [done|]. exists r'. split; [|dlia].
    exists c'. split; [done|dlia].
Qed.

Lemma validateMove_NoDup b row col v : NoDup (conflicts (validateMove b row col v)).
Proof.
  unfold validateMove. cbn [conflicts].
  apply NoDup_app. split_and!; [|intros q|apply NoDup_app; split_and!; [|intros q|]].
  - apply NoDup_fmap_2; [intros ??; congruence|]. apply NoDup_filter, NoDup_seq.
  - rewrite list_elem_of_fmap, elem_of_app, list_elem_of_fmap, list_elem_of_filter.
    intros (c & -> & [[Hc _] _]%list_elem_of_filter)
      [(r & [= ? ?] & [[Hr _] _]%list_elem_of_filter)|[(Hr & _) _]]; simpl in *; congruence.
  - apply NoDup_fmap_2; [intros ??; congruence|]. apply NoDup_filter, NoDup_seq.
  - rewrite list_elem_of_fmap, list_elem_of_filter.
    intros (r & -> & _) [(_ & Hc & _) _]. simpl in *. congruence.
  - apply NoDup_filter. apply NoDup_bind; [| |apply NoDup_seq].
    + intros r1 r2 q _ _ (c1 & ->%list_elem_of_singleton & _)%list_elem_of_bind
        (c2 & [= ? ?]%list_elem_of_singleton & _)%list_elem_of_bind. done.
    + intros r _. apply NoDup_bind; [| |apply NoDup_seq].
      * intros c1 c2 q _ _ ->%list_elem_of_singleton [= ?]%list_elem_of_singleton. done.
      * intros c _. apply NoDup_singleton.
Qed.


Lemma validateMove_isValid_nil b r c v :
  isValid (validateMove b r c v) = true ↔ conflicts (validateMove b r c v) = [].
Proof.
  unfold validateMove. cbn [isValid conflicts].
  rewrite bool_decide_eq_true. apply length_zero_iff_nil.
Qed.

Lemma validateMove_isValid b p v :
  in_grid p →
  isValid (validateMove b p.1 p.2 v) = true ↔ ¬ ∃ q, conflict b p v q.
Proof.
  intros Hp.
  pose proof (λ q, validateMove_conflicts b p v q Hp) as Hc.
  rewrite validateMove_isValid_nil. split.
  - intros Hnil [q Hq%Hc]. rewrite Hnil in Hq. inversion Hq.
  - intros Hn. destruct (conflicts (validateMove b p.1 p.2 v)) as [|q l] eqn:E;
      [done|]. destruct Hn. exists q. apply Hc. left.
Qed.

Lemma wfcb_true b : wfcb b = true → wfc b.
Proof.
  unfold wfcb, wfc. rewrite andb_true_iff, bool_decide_eq_true, forallb_elem_of.
  rewrite Forall_forall. intros [H1 H2]. split; [done|]. intros r Hr.
  specialize (H2 r Hr). by apply bool_decide_eq_true in H2.
Qed.

(** X10: for a cell of the grid, the conflicts returned by [validateMove]
    are exactly the other cells of its row, column and block that hold the
    value, each listed once; the move is valid exactly when there is no such
    cell, that is when the list is empty.  The cell itself is not looked
    at. *)
Theorem validateMove_spec b row col v :
  wfc b → in_grid (row, col) →
  (∀ q, q ∈ conflicts (validateMove b row col v) ↔ conflict b (row, col) v q) ∧
  NoDup (conflicts (validateMove b row col v)) ∧
  (isValid (validateMove b row col v) = true ↔
     ¬ ∃ q, conflict b (row, col) v q) ∧
  (isValid (validateMove b row col v) = true ↔
     conflicts (validateMove b row col v) = []).
Proof.
  intros _ Hp. split_and!.
  - intros q. apply (validateMove_conflicts b (row, col) v q Hp).
  - apply validateMove_NoDup.
  - apply (validateMove_isValid b (row, col) v Hp).
  - apply validateMove_isValid_nil.
Qed.

Lemma validateMove_spec_witness :
  wfc blank_board ∧ in_grid (0, 0)%nat ∧
  (∀ q, q ∈ conflicts (validateMove blank_board 0 0 5)
        ↔ conflict blank_board (0, 0)%nat 5 q).
Proof.
  assert (wfc blank_board) as Hw by (apply wfcb_true; vm_compute; reflexivity).
  assert (in_grid (0, 0)%nat) as H by (apply in_grid_intro; lia).
  split; [exact Hw|]. split; [exact H|].
  exact (proj1 (validateMove_spec blank_board 0 0 5 Hw H)).
Defined.

(** *** The two constraint checkers *)

Lemma at_grid_of b p :
  at_ (grid_of b) p = (λ x, default 0 (value x)) <$> cellAt b p.1 p.2.
Proof.
  unfold at_, cell, grid_of, cellAt. rewrite list_lookup_fmap.
  destruct (b !! p.1) as [r|]; simpl; [|done]. by rewrite list_lookup_fmap.
Qed.

Lemma at_grid_of_Some b p v :
  v ≠ 0 → at_ (grid_of b) p = Some v ↔ val b p = Some v.
Proof.
  intros Hv. rewrite at_grid_of. unfold val, valueAt.
  destruct (cellAt b p.1 p.2) as [x|]; simpl; [|done].
  destruct (value x) as [w|]; simpl; split; congruence.
Qed.

Lemma wfb_grid_of b : wfc b → wfb (grid_of b).
Proof.
  intros [Hl Hr]. unfold grid_of. split; [by rewrite length_fmap|].
  apply Forall_fmap. eapply Forall_impl; [done|]. intros r Hlen. simpl.
  by rewrite length_fmap.
Qed.

(** X11: the validator and the generator's constraint checker agree on a
    cell that does not itself hold the value: for a value other than 0,
    [validateMove(board, row, col, value).isValid] is
    [isValidPlacement(grid, row, col, value)] on the number grid of the
    board. *)
Theorem validateMove_isValidPlacement b row col v :
  wfc b → in_grid (row, col) → v ≠ 0 → val b (row, col) ≠ Some v →
  isValid (validateMove b row col v) = isValidPlacement (grid_of b) row col v.
Proof.
  intros _ Hp Hv Hown.
  pose proof (validateMove_isValid b (row, col) v Hp) as H1.
  pose proof (isValidPlacement_true (grid_of b) (row, col) v Hp) as H2.
  cbn [fst snd] in *.
  destruct (isValid (validateMove b row col v)) eqn:E1,
           (isValidPlacement (grid_of b) row col v) eqn:E2; try done.
  - assert (false = true); [|done]. apply H2. intros q Hq Hu Hat.
    apply at_grid_of_Some in Hat; [|done].
    apply (proj1 H1 eq_refl). exists q.
    split_and!; first [done | congruence | by intros ->].
  - assert (false = true); [|done]. apply H1. intros (q & Hq & Hne & Hu & Hval).
    apply (proj1 H2 eq_refl q Hq Hu). by apply at_grid_of_Some.
Qed.

Lemma validateMove_isValidPlacement_witness :
  wfc blank_board ∧ in_grid (3, 4)%nat ∧ 7 ≠ 0 ∧
  val blank_board (3, 4)%nat ≠ Some 7 ∧
  isValid (validateMove blank_board 3 4 7)
  = isValidPlacement (grid_of blank_board) 3 4 7.
Proof.
  assert (wfc blank_board) as Hw by (apply wfcb_true; vm_compute; reflexivity).
  assert (in_grid (3, 4)%nat) as H1 by (apply in_grid_intro; lia).
  assert (7 ≠ 0) as H2 by lia.
  assert (val blank_board (3, 4)%nat ≠ Some 7) as H3 by (vm_compute; discriminate).
  split; [exact Hw|]. split; [exact H1|]. split; [exact H2|]. split; [exact H3|].
  exact (validateMove_isValidPlacement blank_board 3 4 7 Hw H1 H2 H3).
Defined.

(** *** [isBoardValid] and [isBoardComplete] *)

Lemma conflict_set_value b p w v q :
  conflict (set_value b p.1 p.2 w) p v q ↔ conflict b p v q.
Proof.
  unfold conflict. split; intros (Hq & Hne & Hu & Hv); split_and!; try done.
  - by rewrite val_set_other in Hv.
  - by rewrite val_set_other.
Qed.

Lemma isBoardValid_loop_spec ps b :
  (∀ p, p ∈ ps → in_grid p) →
  (isBoardValid_loop ps b).1 = b ∧
  ((isBoardValid_loop ps b).2 = true ↔
   ∀ p v, p ∈ ps → val b p = Some v → ¬ ∃ q, conflict b p v q).
Proof.
  induction ps as [|[r c] ps IH]; intros Hps.
  { split; [done|]. split; [|done]. intros _ p v Hp. inversion Hp. }
  destruct IH as [IH1 IH2]; [intros; apply Hps; by right|].
  assert (in_grid (r, c)) as Hp by (apply Hps; left).
  cbn [isBoardValid_loop].
  change (valueAt b r c) with (val b (r, c)).
  destruct (val b (r, c)) as [v|] eqn:Ev.
  - pose proof (set_value_restore b (r, c) None v Ev) as Hrest.
    cbn [fst snd] in Hrest. cbv zeta. rewrite Hrest.
    pose proof (validateMove_isValid (set_value b r c None) (r, c) v Hp) as Hvalid.
    cbn [fst snd] in Hvalid.
    destruct (isValid (validateMove (set_value b r c None) r c v)) eqn:E.
    + split; [done|]. rewrite IH2. split.
      * intros H p w [->|Hin]%elem_of_cons Hw; [|by apply H].
        rewrite Ev in Hw. injection Hw as <-. intros [q Hq].
        apply (proj1 Hvalid eq_refl). exists q.
        by apply (conflict_set_value b (r, c)).
      * intros H p w Hin. apply H. by right.
    + split; [done|]. split; [done|]. intros H. apply Hvalid.
      intros [q Hq%(conflict_set_value b (r, c))].
      apply (H (r, c) v); [left|done|by exists q].
  - split; [done|]. rewrite IH2. split.
    + intros H p w [->|Hin]%elem_of_cons Hw; [congruence|by apply H].
    + intros H p w Hin. apply H. by right.
Qed.

Lemma Valid_conflict b :
  Valid b ↔ ∀ p v, in_grid p → val b p = Some v → ¬ ∃ q, conflict b p v q.
Proof.
  unfold Valid, conflict. split.
  - intros H p v Hp Hv (q & Hq & Hne & Hu & Hvq).
    apply (H p q); try done; congruence.
  - intros H p q Hp Hq Hne Hu Hnn E.
    destruct (val b p) as [v|] eqn:Ev; [|done].
    apply (H p v Hp Ev). exists q.
    split_and!; first [done | congruence | by intros ->].
Qed.

Lemma isBoardValid_board b : (isBoardValid b).1 = b.
Proof.
  apply (isBoardValid_loop_spec positions b). intros p. apply elem_of_positions.
Qed.

Lemma isBoardValid_answer b : (isBoardValid b).2 = true ↔ Valid b.
Proof.
  destruct (isBoardValid_loop_spec positions b) as [_ H2].
  { intros p. apply elem_of_positions. }
  unfold isBoardValid. rewrite H2, Valid_conflict.
  split; intros H p v; [intros Hp%elem_of_positions|intros Hp%elem_of_positions];
    by apply H.
Qed.

Lemma isBoardComplete_board b : (isBoardComplete b).1 = b.
Proof.
  unfold isBoardComplete. destruct (existsb _ positions); [done|].
  apply isBoardValid_board.
Qed.

Lemma isBoardComplete_answer b :
  (isBoardComplete b).2 = true ↔ (∀ p, in_grid p → val b p ≠ None) ∧ Valid b.
Proof.
  unfold isBoardComplete. destruct (existsb _ positions) eqn:E.
  - split; [done|]. intros [Hfull _]. exfalso.
    apply existsb_exists in E as (p & Hp%list_elem_of_In%elem_of_positions & Hn).
    apply bool_decide_eq_true in Hn. by apply (Hfull p).
  - rewrite isBoardValid_answer.
    rewrite existsb_false in E. split; [|tauto]. intros Hv. split; [|done].
    intros p Hp%elem_of_positions Hn. specialize (E p Hp).
    by apply bool_decide_eq_false in E.
Qed.

(** The values on the board are digits. *)
Lemma complete_Solution b :
  wfc b → (∀ p v, in_grid p → val b p = Some v → 1 ≤ v ≤ 9) →
  ((∀ p, in_grid p → val b p ≠ None) ∧ Valid b) ↔ Solution (grid_of b).
Proof.
  intros Hwf Hdig. split.
  - intros [Hfull Hvalid]. split_and!; [by apply wfb_grid_of| |].
    + intros p Hp. destruct (val b p) as [v|] eqn:Ev; [|by destruct (Hfull p Hp)].
      exists v. split; [|by apply (Hdig p)].
      apply at_grid_of_Some; [|done]. specialize (Hdig p v Hp Ev). lia.
    + intros p q Hp Hq Hne Hu E.
      destruct (val b p) as [v|] eqn:Ev; [|by destruct (Hfull p Hp)].
      destruct (val b q) as [w|] eqn:Ew; [|by destruct (Hfull q Hq)].
      pose proof (Hdig p v Hp Ev). pose proof (Hdig q w Hq Ew).
      assert (at_ (grid_of b) p = Some v) as Ep by (apply at_grid_of_Some; [lia|done]).
      assert (at_ (grid_of b) q = Some w) as Eq by (apply at_grid_of_Some; [lia|done]).
      apply (Hvalid p q); try done; congruence.
  - intros (_ & Hr & Hd).
    assert (∀ p, in_grid p → ∃ v, val b p = Some v ∧ at_ (grid_of b) p = Some v)
      as Hval.
    { intros p Hp. destruct (Hr p Hp) as (v & Ev & Hv). exists v. split; [|done].
      apply at_grid_of_Some in Ev; [done|lia]. }
    split.
    + intros p Hp. destruct (Hval p Hp) as (v & -> & _). done.
    + intros p q Hp Hq Hne Hu _ E.
      destruct (Hval p Hp) as (v & Ev & Ev'), (Hval q Hq) as (w & Ew & Ew').
      apply (Hd p q); try done. congruence.
Qed.

(** X12: on a 9x9 board [isBoardValid] leaves the board as it found it
    (every value it takes out of a cell is put back, also when it returns
    early), and it answers [true] exactly when no filled cell has its value
    in another cell of its row, column or block. *)
Theorem isBoardValid_spec b :
  wfc b → (isBoardValid b).1 = b ∧ ((isBoardValid b).2 = true ↔ Valid b).
Proof.
  intros _. split; [apply isBoardValid_board|apply isBoardValid_answer].
Qed.

Lemma isBoardValid_spec_witness :
  wfc blank_board ∧ (isBoardValid blank_board).1 = blank_board.
Proof.
  assert (wfc blank_board) as H by (apply wfcb_true; vm_compute; reflexivity).
  split; [exact H|]. exact (proj1 (isBoardValid_spec blank_board H)).
Defined.

(** X13: on a 9x9 board [isBoardComplete] leaves the board unchanged and
    answers [true] exactly when every cell is filled and no value is
    repeated in a row, column or block; when the values on the board are
    digits 1..9 that is exactly when the number grid of the board is a
    Solution. *)
Theorem isBoardComplete_spec b :
  wfc b →
  (isBoardComplete b).1 = b ∧
  ((isBoardComplete b).2 = true ↔
     (∀ p, in_grid p → val b p ≠ None) ∧ Valid b) ∧
  ((∀ p v, in_grid p → val b p = Some v → 1 ≤ v ≤ 9) →
   ((isBoardComplete b).2 = true ↔ Solution (grid_of b))).
Proof.
  intros Hwf. split_and!.
  - apply isBoardComplete_board.
  - apply isBoardComplete_answer.
  - intros Hdig. rewrite isBoardComplete_answer. by apply complete_Solution.
Qed.

Lemma isBoardComplete_spec_witness :
  wfc blank_board ∧ (isBoardComplete blank_board).1 = blank_board.
Proof.
  assert (wfc blank_board) as H by (apply wfcb_true; vm_compute; reflexivity).
  split; [exact H|]. exact (proj1 (isBoardComplete_spec blank_board H)).
Defined.

(** *** [isRowComplete], [isColumnComplete], [isBlockComplete] *)

Lemma collect_spec b ps (S : gset Z) :
  NoDup ps →
  match collect b ps S with
  | Some S' =>
      size S' = (size S + length ps)%nat ∧
      (∀ p, p ∈ ps → ∃ v, val b p = Some v ∧ v ∉ S) ∧
      (∀ p q, p ∈ ps → q ∈ ps → p ≠ q → val b p ≠ val b q)
  | None =>
      ¬ ((∀ p, p ∈ ps → ∃ v, val b p = Some v ∧ v ∉ S) ∧
         (∀ p q, p ∈ ps → q ∈ ps → p ≠ q → val b p ≠ val b q))
  end.
Proof.
  intros Hnd. revert S. induction Hnd as [|[r c] ps Hnotin Hnd IH]; intros S.
  { simpl. split_and!; [lia|intros p Hp; inversion Hp|intros p q Hp; inversion Hp]. }
  cbn [collect]. change (valueAt b r c) with (val b (r, c)).
  destruct (val b (r, c)) as [v|] eqn:Ev.
  - case_decide as Hv.
    + intros [Hall _]. destruct (Hall (r, c)) as (w & Ew & Hw); [left|]. congruence.
    + specialize (IH ({[v]} ∪ S)). destruct (collect b ps ({[v]} ∪ S)) as [S'|].
      * destruct IH as (Hsize & Hall & Hd). split_and!.
        -- rewrite Hsize, size_union, size_singleton by set_solver. simpl. lia.
        -- intros p [->|Hp]%elem_of_cons; [by exists v|].
           destruct (Hall p Hp) as (w & Ew & Hw). exists w. split; [done|set_solver].
        -- intros p q [->|Hp]%elem_of_cons [->|Hq]%elem_of_cons Hne; try done.
           ++ destruct (Hall q Hq) as (w & Ew & Hw). rewrite Ev, Ew.
              intros [= ->]. set_solver.
           ++ destruct (Hall p Hp) as (w & Ew & Hw). rewrite Ev, Ew.
              intros [= ->]. set_solver.
           ++ by apply Hd.
      * intros [Hall Hd]. apply IH. split.
        -- intros p Hp. destruct (Hall p) as (w & Ew & Hw); [by right|].
           exists w. split; [done|]. intros [Hin%elem_of_singleton|Hin]%elem_of_union;
             [|done]. subst w. apply (Hd (r, c) p); [left|by right| |congruence].
           intros <-. done.
        -- intros p q Hp Hq. apply Hd; by right.
  - intros [Hall _]. destruct (Hall (r, c)) as (w & Ew & _); [left|]. congruence.
Qed.

Lemma complete_spec b ps :
  NoDup ps → length ps = GRID_SIZE → complete b ps = true ↔ Distinct b ps.
Proof.
  intros Hnd Hlen. unfold complete, Distinct.
  pose proof (collect_spec b ps ∅ Hnd) as H.
  destruct (collect b ps ∅) as [S'|].
  - destruct H as (Hsize & Hall & Hd). rewrite bool_decide_eq_true. split.
    + intros _. split; [|done]. intros p Hp. destruct (Hall p Hp) as (v & -> & _). done.
    + intros _. rewrite Hsize, size_empty, Hlen. done.
  - split; [done|]. intros [Hall Hd]. destruct H. split; [|done].
    intros p Hp. specialize (Hall p Hp). destruct (val b p) as [v|]; [|done].
    exists v. split; [done|set_solver].
Qed.

Lemma NoDup_block_cells i : NoDup (block_cells i) ∧ length (block_cells i) = GRID_SIZE.
Proof.
  unfold block_cells, BLOCK_SIZE. split; [|done].
  apply NoDup_bind; [| |apply NoDup_seq].
  - intros r1 r2 q _ _ (c1 & ->%list_elem_of_singleton & _)%list_elem_of_bind
      (c2 & [= ? ?]%list_elem_of_singleton & _)%list_elem_of_bind. lia.
  - intros r _. apply NoDup_bind; [| |apply NoDup_seq].
    + intros c1 c2 q _ _ ->%list_elem_of_singleton [= ?]%list_elem_of_singleton. lia.
    + intros c _. apply NoDup_singleton.
Qed.

Lemma block_cells_seq i :
  (r ← seq (i / BLOCK_SIZE * BLOCK_SIZE)%nat BLOCK_SIZE;
   c ← seq (i mod BLOCK_SIZE * BLOCK_SIZE)%nat BLOCK_SIZE; [(r, c)]) = block_cells i.
Proof.
  unfold block_cells, BLOCK_SIZE.
  generalize (i / 3 * 3)%nat (i mod 3 * 3)%nat. intros a c.
  cbn [seq mbind list_bind app]. repeat (f_equal; try lia).
Qed.

Lemma isRowComplete_Distinct b i :
  isRowComplete b i = true ↔ Distinct b (row_cells i).
Proof.
  apply (complete_spec b (row_cells i));
    [|by unfold row_cells; rewrite length_fmap, length_seq].
  apply NoDup_fmap_2; [intros ??; congruence|apply NoDup_seq].
Qed.

Lemma isColumnComplete_Distinct b i :
  isColumnComplete b i = true ↔ Distinct b (col_cells i).
Proof.
  apply (complete_spec b (col_cells i));
    [|by unfold col_cells; rewrite length_fmap, length_seq].
  apply NoDup_fmap_2; [intros ??; congruence|apply NoDup_seq].
Qed.

Lemma isBlockComplete_Distinct b i :
  isBlockComplete b i = true ↔ Distinct b (block_cells i).
Proof.
  unfold isBlockComplete. cbv zeta. rewrite block_cells_seq.
  apply (complete_spec b (block_cells i)); apply NoDup_block_cells.
Qed.

(** X14: on a 9x9 board [isRowComplete], [isColumnComplete] and
    [isBlockComplete] answer [true] exactly when the nine cells of the row,
    column or block are all filled and hold nine different values; whether
    the values are digits is not checked. *)
Theorem unit_complete_spec b i :
  wfc b → (i < 9)%nat →
  (isRowComplete b i = true ↔ Distinct b (row_cells i)) ∧
  (isColumnComplete b i = true ↔ Distinct b (col_cells i)) ∧
  (isBlockComplete b i = true ↔ Distinct b (block_cells i)).
Proof.
  intros _ _. split_and!.
  - apply isRowComplete_Distinct.
  - apply isColumnComplete_Distinct.
  - apply isBlockComplete_Distinct.
Qed.

Lemma unit_complete_spec_witness :
  wfc blank_board ∧ (4 < 9)%nat ∧
  (isRowComplete blank_board 4 = true ↔ Distinct blank_board (row_cells 4)).
Proof.
  assert (wfc blank_board) as H1 by (apply wfcb_true; vm_compute; reflexivity).
  assert (4 < 9)%nat as H2 by lia.
  split; [exact H1|]. split; [exact H2|].
  exact (proj1 (unit_complete_spec blank_board 4 H1 H2)).
Defined.

(** X17: on a 9x9 board that [isBoardComplete] accepts, every row, every
    column and every block is complete. *)
Theorem isBoardComplete_units b i :
  wfc b → (i < 9)%nat → (isBoardComplete b).2 = true →
  isRowComplete b i = true ∧ isColumnComplete b i = true ∧
  isBlockComplete b i = true.
Proof.
  intros _ Hi [Hfull Hvalid]%isBoardComplete_answer.
  assert (∀ ps, unit_ok ps → Distinct b ps) as Hunit.
  { intros ps (Hnd & Hlen & Hg & Hu). split.
    - intros p Hp. apply Hfull, Hg, Hp.
    - intros p q Hp Hq Hne. apply Hvalid; auto. }
  split_and!.
  - apply isRowComplete_Distinct, Hunit. by apply row_cells_ok.
  - apply isColumnComplete_Distinct, Hunit. by apply col_cells_ok.
  - apply isBlockComplete_Distinct, Hunit. by apply block_cells_ok.
Qed.

Lemma isBoardComplete_units_witness :
  wfc (cells_of known_solution) ∧ (7 < 9)%nat ∧
  (isBoardComplete (cells_of known_solution)).2 = true ∧
  isRowComplete (cells_of known_solution) 7 = true.
Proof.
  assert (wfc (cells_of known_solution)) as H1
    by (apply wfcb_true; vm_compute; reflexivity).
  assert (7 < 9)%nat as H2 by lia.
  assert ((isBoardComplete (cells_of known_solution)).2 = true) as H3
    by (vm_compute; reflexivity).
  split; [exact H1|]. split; [exact H2|]. split; [exact H3|].
  exact (proj1 (isBoardComplete_units (cells_of known_solution) 7 H1 H2 H3)).
Defined.

(** *** [getDigitCounts] *)

Lemma count_step b (m : gmap Z Z) ps d :
  let step := λ (counts : gmap Z Z) (p : nat * nat),
    match valueAt b p.1 p.2 with
    | Some v => <[v := default 0 (counts !! v) + 1]> counts
    | None => counts
    end in
  foldl step m ps !! d =
  if decide (is_Some (m !! d) ∨ (0 < length (filter (λ p, val b p = Some d) ps))%nat)
  then Some (default 0 (m !! d) + Z.of_nat (length (filter (λ p, val b p = Some d) ps)))
  else None.
Proof.
  intros step. revert m. induction ps as [|p ps IH]; intros m.
  { simpl. destruct (m !! d) as [x|] eqn:E.
    - rewrite decide_True by (left; eauto). simpl. f_equal. lia.
    - rewrite decide_False; [done|]. intros [[? [=]]|?]. lia. }
  cbn [foldl]. rewrite IH. rewrite filter_cons.
  destruct (decide (val b p = Some d)) as [E|E].
  - assert (step m p = <[d := default 0 (m !! d) + 1]> m) as ->.
    { unfold step. change (valueAt b p.1 p.2) with (val b p). by rewrite E. }
    rewrite lookup_insert_eq.
    rewrite decide_True by (left; eauto).
    rewrite decide_True by (right; simpl; lia). simpl. f_equal. lia.
  - assert (step m p !! d = m !! d) as ->; [|done].
    unfold step. change (valueAt b p.1 p.2) with (val b p).
    destruct (val b p) as [v|]; [|done].
    rewrite lookup_insert_ne; [done|congruence].
Qed.

(** X15: the map returned by [getDigitCounts] gives, for each digit 1..9,
    the number of cells that hold it (0 when there is none); a value outside
    1..9 has an entry, with its number of cells, exactly when some cell holds
    it. *)
Theorem getDigitCounts_spec b d :
  wfc b →
  getDigitCounts b !! d =
  if decide (1 ≤ d ≤ 9 ∨ (0 < occurrences b d)%nat)
  then Some (Z.of_nat (occurrences b d)) else None.
Proof.
  intros _. unfold getDigitCounts, occurrences. rewrite count_step.
  set (init := foldl _ ∅ digits).
  assert (init !! d = if decide (1 ≤ d ≤ 9) then Some 0 else None) as Hinit.
  { unfold init, digits. simpl. rewrite !lookup_insert, lookup_empty.
    repeat case_decide; try done; lia. }
  rewrite Hinit. case_decide as Hd.
  - rewrite decide_True by (left; eauto). rewrite decide_True by (by left).
    simpl. f_equal.
  - destruct (decide (0 < length (filter (λ p, val b p = Some d) positions))%nat)
      as [Hpos|Hpos].
    + rewrite decide_True by (by right). rewrite decide_True by (by right).
      simpl. f_equal.
    + rewrite decide_False by (by intros [[? [=]]|?]).
      rewrite decide_False by tauto. done.
Qed.

Lemma getDigitCounts_spec_witness :
  wfc blank_board ∧ getDigitCounts blank_board !! 5 = Some 0.
Proof.
  assert (wfc blank_board) as H by (apply wfcb_true; vm_compute; reflexivity).
  split; [exact H|]. exact (getDigitCounts_spec blank_board 5 H).
Defined.

(** *** [findValidCellsForValue] *)

Lemma StronglySorted_filter {A} (R : relation A) (P : A → Prop)
    `{!∀ x, Decision (P x)} l :
  StronglySorted R l → StronglySorted R (filter P l).
Proof.
  induction 1 as [|x l Hs IH Hall]; [constructor|].
  rewrite filter_cons. case_decide; [|done].
  constructor; [done|]. rewrite Forall_forall in *.
  intros y [_ Hy]%list_elem_of_filter. auto.
Qed.

(** X16: [findValidCellsForValue] lists, in row-major order and each once,
    exactly the empty cells of the grid in whose row, column and block no
    cell holds the value. *)
Theorem findValidCellsForValue_spec b v :
  wfc b →
  (∀ p, p ∈ findValidCellsForValue b v ↔
        in_grid p ∧ val b p = None ∧ ¬ ∃ q, conflict b p v q) ∧
  StronglySorted before (findValidCellsForValue b v) ∧
  NoDup (findValidCellsForValue b v).
Proof.
  intros _. unfold findValidCellsForValue. split_and!.
  - intros p. rewrite list_elem_of_filter, elem_of_positions. split.
    + intros [[Hn Hv] Hp]. split_and!; [done..|]. by apply validateMove_isValid.
    + intros (Hp & Hn & Hv). split_and!; [done| |done]. by apply validateMove_isValid.
  - apply StronglySorted_filter, positions_sorted.
  - apply NoDup_filter, NoDup_positions.
Qed.

Lemma findValidCellsForValue_spec_witness :
  wfc blank_board ∧ NoDup (findValidCellsForValue blank_board 5).
Proof.
  assert (wfc blank_board) as H by (apply wfcb_true; vm_compute; reflexivity).
  split; [exact H|].
  exact (proj2 (proj2 (findValidCellsForValue_spec blank_board 5 H))).
Defined.

End ValidatorFacts.
